(** * carbonapi [expr/helper]: series resolution, alignment, aggregation
      and metric-name extraction

    A shallow embedding of [expr/helper/helper.go] and the properties of
    its functions.  Go values are modelled as follows.

    - [int64] and [int] are [Z]; the arithmetic of [int64] wraps
      ([wrap64]), integer division truncates and panics on a zero divisor.
    - [float64] is [spec_float] at precision 53 (IEEE 754 binary64 with
      a single NaN).
    - [string] is [String.string], a sequence of bytes.
    - a pointer to a series is a location of a heap [gmap nat MetricData];
      a location outside the heap stands for a nil pointer.
    - a slice is the list of its elements: the functions of this file
      never write below the length of a slice they did not allocate.
      Memory is unbounded: [make] and [append] do not fail for lack of it.
    - a run-time panic is the outcome [Panic]; Go's [error] results are
      ordinary values. *)

From Stdlib Require Import ZArith String Ascii Lia.
From Stdlib Require Import Floats.SpecFloat.
From Equations Require Import Equations.
From stdpp Require Import gmap strings list.

Local Open Scope Z_scope.

(** ** Run-time panics *)

Inductive panic : Set :=
  | IndexOutOfRange
  | SliceBoundsOutOfRange
  | NilDereference
  | IntegerDivideByZero
  | MakeSliceLenOutOfRange.

Inductive outcome (A : Type) : Type :=
  | Done (a : A)
  | Panic (p : panic).

Arguments Done {A} a.
Arguments Panic {A} p.

#[global] Instance outcome_ret : MRet outcome := @Done.
#[global] Instance outcome_bind : MBind outcome := λ A B k m,
  match m with
  | Done a => k a
  | Panic p => Panic p
  end.

(** [l[i]] on a slice. *)
Definition index {A : Type} (l : list A) (i : nat) : outcome A :=
  match l !! i with
  | Some x => Done x
  | None => Panic IndexOutOfRange
  end.

Lemma bind_Done {A B : Type} (m : outcome A) (k : A → outcome B) (b : B) :
  m ≫= k = Done b → ∃ a, m = Done a ∧ k a = Done b.
Proof. destruct m as [a|p]; simpl; [eauto | discriminate]. Qed.

Lemma index_Done {A : Type} (l : list A) (i : nat) (x : A) :
  index l i = Done x ↔ l !! i = Some x.
Proof. unfold index. destruct (l !! i); split; congruence. Qed.

Lemma index_Panic {A : Type} (l : list A) (i : nat) :
  (length l ≤ i)%nat → index l i = Panic IndexOutOfRange.
Proof. intros H. unfold index. by rewrite lookup_ge_None_2. Qed.

(** ** Metric-name extraction *)

(** [s[a:b]] on a string. *)
Definition slice (s : string) (a b : nat) : outcome string :=
  if decide (a ≤ b ∧ b ≤ String.length s)%nat
  then Done (substring a (b - a) s)
  else Panic SliceBoundsOutOfRange.

(** [s[i:]] for [i <= len(s)]. *)
Definition suffix (s : string) (i : nat) : string :=
  substring i (String.length s - i) s.

Definition byteZ (c : ascii) : Z := Z.of_N (N_of_ascii c).

(** *** [unicode/utf8.DecodeRuneInString] of the Go standard library *)

Definition RuneError : Z := 0xFFFD.

(** The table [first]: information about the first byte of an encoding. *)
Definition first (b : Z) : Z :=
  if b <? 0x80 then 0xF0
  else if b <? 0xC2 then 0xF1
  else if b <? 0xE0 then 0x02
  else if b =? 0xE0 then 0x13
  else if b <? 0xED then 0x03
  else if b =? 0xED then 0x23
  else if b <? 0xF0 then 0x03
  else if b =? 0xF0 then 0x34
  else if b <? 0xF4 then 0x04
  else if b =? 0xF4 then 0x44
  else 0xF1.

(** The table [acceptRanges]: bounds of the second byte. *)
Definition acceptRanges (k : Z) : Z * Z :=
  if k =? 0 then (0x80, 0xBF)
  else if k =? 1 then (0xA0, 0xBF)
  else if k =? 2 then (0x80, 0x9F)
  else if k =? 3 then (0x90, 0xBF)
  else if k =? 4 then (0x80, 0x8F)
  else (0, 0).

Definition continuation (b : Z) : bool := (0x80 <=? b) && (b <=? 0xBF).

Definition DecodeRuneInString (s : string) : Z * nat :=
  match s with
  | EmptyString => (RuneError, 0%nat)
  | String c0 rest =>
      let s0 := byteZ c0 in
      let x := first s0 in
      if 0xF0 <=? x then
        ((if Z.testbit x 0 then RuneError else s0), 1%nat)
      else
        let sz := Z.land x 7 in
        let '(lo, hi) := acceptRanges (Z.shiftr x 4) in
        if Z.of_nat (String.length s) <? sz then (RuneError, 1%nat)
        else
          match rest with
          | EmptyString => (RuneError, 1%nat)
          | String c1 rest1 =>
              let s1 := byteZ c1 in
              if (s1 <? lo) || (hi <? s1) then (RuneError, 1%nat)
              else if sz <=? 2 then
                (Z.lor (Z.shiftl (Z.land s0 0x1F) 6) (Z.land s1 0x3F), 2%nat)
              else
                match rest1 with
                | EmptyString => (RuneError, 1%nat)
                | String c2 rest2 =>
                    let s2 := byteZ c2 in
                    if negb (continuation s2) then (RuneError, 1%nat)
                    else if sz <=? 3 then
                      (Z.lor (Z.lor (Z.shiftl (Z.land s0 0x0F) 12)
                                    (Z.shiftl (Z.land s1 0x3F) 6))
                             (Z.land s2 0x3F), 3%nat)
                    else
                      match rest2 with
                      | EmptyString => (RuneError, 1%nat)
                      | String c3 _ =>
                          let s3 := byteZ c3 in
                          if negb (continuation s3) then (RuneError, 1%nat)
                          else
                            (Z.lor (Z.lor (Z.lor (Z.shiftl (Z.land s0 0x07) 18)
                                                 (Z.shiftl (Z.land s1 0x3F) 12))
                                          (Z.shiftl (Z.land s2 0x3F) 6))
                                   (Z.land s3 0x3F), 4%nat)
                      end
                end
          end
  end.

Section ExtractMetric.

(** [parser.IsNameChar] and [unicode.In(r, parser.RangeTables...)]: the
    classifier and the configured range tables belong to the parser
    package. *)
Variable IsNameChar : ascii → bool.
Variable InRangeTables : Z → bool.

(** One iteration of the loop labelled [FOR], at index [i < len(s)] on the
    byte [c = s[i]].  The offsets and the nesting counter never exceed the
    length of the text: they are natural numbers. *)
Inductive control : Set :=
  | Break
  | Continue (start braces i : nat).

Definition scan_byte (s : string) (c : ascii) (start braces i : nat) : control :=
  if IsNameChar c then Continue start braces (i + 1)
  else if Ascii.eqb c ";" then Break
  else if Ascii.eqb c "{" then Continue start (braces + 1) (i + 1)
  else if Ascii.eqb c "}" then
    if Nat.eqb braces 0 then Break else Continue start (braces - 1) (i + 1)
  else if Ascii.eqb c "," then
    if Nat.eqb braces 0 then Break else Continue start braces (i + 1)
  else if Ascii.eqb c ")" then Break
  else
    let '(r, w) := DecodeRuneInString (suffix s i) in
    if InRangeTables r then Continue start braces (i + w)
    else Continue (i + 1) braces (i + w).

Definition scan_step (s : string) (start braces i : nat) : control :=
  match String.get i s with
  | None => Break
  | Some c => scan_byte s c start braces i
  end.

Lemma DecodeRuneInString_width (c : ascii) (s : string) :
  (1 ≤ (DecodeRuneInString (String c s)).2 ≤ 4)%nat.
Proof.
  unfold DecodeRuneInString.
  repeat (match goal with
          | |- context [match ?x with _ => _ end] => destruct x
          end; simpl; try lia).
Qed.

Lemma get_Some_lt (s : string) (i : nat) (c : ascii) :
  String.get i s = Some c → (i < String.length s)%nat.
Proof.
  revert i. induction s as [|a s IH]; intros [|i]; simpl; try discriminate.
  - lia.
  - intros H. apply IH in H. lia.
Qed.

Lemma suffix_get (s : string) (i : nat) (c : ascii) :
  String.get i s = Some c → ∃ t, suffix s i = String c t.
Proof.
  unfold suffix. revert i. induction s as [|a s IH]; intros [|i]; simpl; try discriminate.
  - intros [= ->]. eauto.
  - intros H. apply IH in H. exact H.
Qed.

Lemma scan_step_Continue (s : string) (start braces i start' braces' i' : nat) :
  scan_step s start braces i = Continue start' braces' i' →
  (i < String.length s ∧ i < i' ∧ (start' = start ∨ start' = i + 1))%nat.
Proof.
  unfold scan_step. destruct (String.get i s) as [c|] eqn:Hget; [|discriminate].
  pose proof (get_Some_lt _ _ _ Hget) as Hlt.
  destruct (suffix_get _ _ _ Hget) as [t Ht].
  pose proof (DecodeRuneInString_width c t) as Hw.
  unfold scan_byte. rewrite Ht.
  destruct (DecodeRuneInString (String c t)) as [r w]; simpl in Hw.
  repeat (match goal with
          | |- context [if ?x then _ else _] => destruct x
          end; try discriminate);
    intros [= <- <- <-]; lia.
Qed.

Definition inspect {A : Type} (x : A) : {y : A | x = y} := exist _ x eq_refl.

(** The loop [FOR]: the final values of [start] and [i]. *)
Equations? scan (s : string) (start braces i : nat) : nat * nat
  by wf (String.length s - i)%nat lt :=
  scan s start braces i with inspect (scan_step s start braces i) := {
    | exist _ Break _ => (start, i)
    | exist _ (Continue start' braces' i') Hstep => scan s start' braces' i' }.
Proof.
  apply scan_step_Continue in Hstep. lia.
Qed.

Definition ExtractMetric (s : string) : outcome string :=
  let '(start, i) := scan s 0 0 0 in
  slice s start i.

End ExtractMetric.


(** ** Machine integers *)

Definition wrap64 (z : Z) : Z := (z + 2 ^ 63) mod 2 ^ 64 - 2 ^ 63.

Definition int64_range (z : Z) : Prop := - 2 ^ 63 ≤ z < 2 ^ 63.

Definition add64 (a b : Z) : Z := wrap64 (a + b).
Definition sub64 (a b : Z) : Z := wrap64 (a - b).

(** [a / b] on [int64]: truncated division, a run-time panic when [b] is zero. *)
Definition quot64 (a b : Z) : outcome Z :=
  if b =? 0 then Panic IntegerDivideByZero else Done (wrap64 (a ÷ b)).

(** ** Floating point *)

Abbreviation float64 := spec_float.

Definition f64_zero : float64 := S754_zero false.
Definition NaN : float64 := S754_nan.

Definition IsNaN (x : float64) : bool :=
  match x with
  | S754_nan => true
  | _ => false
  end.

Definition f64_add : float64 → float64 → float64 := SFadd 53 1024.
Definition f64_sub : float64 → float64 → float64 := SFsub 53 1024.
Definition f64_div : float64 → float64 → float64 := SFdiv 53 1024.

(** The conversion [float64(z)] of an integer, rounding to nearest even. *)
Definition f64_of_int (z : Z) : float64 := binary_normalize 53 1024 z 0 false.

(** [math.Ceil]: zeros, infinities and NaN are returned unchanged. *)
Definition Ceil (x : float64) : float64 :=
  match x with
  | S754_finite s m e =>
      if 0 <=? e then x
      else
        let q := Z.pos m / 2 ^ (- e) in
        let exact := Z.pos m mod 2 ^ (- e) =? 0 in
        if s then binary_normalize 53 1024 (- q) 0 true
        else binary_normalize 53 1024 (if exact then q else q + 1) 0 false
  | _ => x
  end.

(** The conversion [int(x)] of a float: truncation towards zero.  For a
    value outside [int64], for an infinity and for NaN, the result is the
    one of the amd64 conversion instruction, the least [int64]. *)
Definition int_of_f64 (x : float64) : Z :=
  match x with
  | S754_zero _ => 0
  | S754_finite s m e =>
      let mag := if 0 <=? e then Z.pos m * 2 ^ e else Z.pos m / 2 ^ (- e) in
      let z := if s then - mag else mag in
      if (- 2 ^ 63 <=? z) && (z <? 2 ^ 63) then z else - 2 ^ 63
  | _ => - 2 ^ 63
  end.

(** [make([]float64, n)]: a zero-filled slice; a negative length panics.
    Memory is unbounded: the panic of the runtime on a length beyond its
    allocation limit is not represented. *)
Definition make_float64s (n : Z) : outcome (list float64) :=
  if n <? 0 then Panic MakeSliceLenOutOfRange
  else Done (replicate (Z.to_nat n) f64_zero).

(** [l[i] = x] on a slice. *)
Definition store {A : Type} (l : list A) (i : nat) (x : A) : outcome (list A) :=
  if decide (i < length l)%nat then Done (<[i := x]> l)
  else Panic IndexOutOfRange.

(** ** Errors *)

(** Modelled from the spec: the error values.  [parser.ErrMissingTimeseries]
    and [parser.ErrSeriesDoesNotExist] are the two error values of the
    parser package that this package returns and compares against;
    [ErrUnknownFunction] is declared in this package; [ErrOther] stands for
    every other error value. *)
Inductive error : Set :=
  | ErrMissingTimeseries
  | ErrSeriesDoesNotExist
  | ErrUnknownFunction (name : string)
  | ErrOther (msg : string).

#[global] Instance error_eq_dec : EqDecision error.
Proof. solve_decision. Defined.

(** ** Expression nodes *)

(** Modelled from the spec: the interface [parser.Expr] of the argument
    nodes, with the methods that this package calls. *)
Class ExprNode (E : Type) : Type := {
  IsName : E → bool;
  IsFunc : E → bool;
  Args : E → list E;
  Target : E → string;
  RawArgs : E → string
}.

(** [fmt.Sprintf("%s(%s)", f, a)] *)
Definition call_name (f a : string) : string := f +:+ "(" +:+ a +:+ ")".

(** The result pair of series pointers and error. *)
Abbreviation result := (list nat * option error)%type.

Section Helper.

(** [Rest]: the fields of [types.MetricData] that this package only
    copies.  [V]: the type of the resolved-values map.  [W]: the state of
    the evaluator outside the heap of series. *)
Context {Rest V W E : Type} `{!ExprNode E}.

(** ** Series *)

(** Modelled from the spec: the struct [types.MetricData] (declared in
    [expr/types]), with the fields that this package reads or writes: the
    display name, the samples, and start time, stop time and step, which
    are [int64] like the bounds [from] and [until] of this package. *)
Record MetricData : Type := mkMetricData {
  Name : string;
  StartTime : Z;
  StopTime : Z;
  StepTime : Z;
  Values : list float64;
  Other : Rest
}.

Abbreviation Heap := (gmap nat MetricData).

(** [*p] *)
Definition load (h : Heap) (p : nat) : outcome MetricData :=
  match h !! p with
  | Some d => Done d
  | None => Panic NilDereference
  end.

(** ** AlignSeries *)

(** The global [ExtrapolatePoints]. *)
Variable ExtrapolatePoints : bool.

(** The local variables of [AlignSeries] that live across iterations. *)
Record locals : Set := mkLocals {
  minStart : Z;
  maxStop : Z;
  maxVals : Z;
  minStepTime : Z
}.

(** The inner loop [for ts < arg.StopTime] of the extrapolation: the
    slice [newVals] is [written ++ replicate slots 0], and [i] is
    [length written]. *)
Fixpoint resample (arg : MetricData) (minStepTime : Z) (pointsPerInterval : float64)
    (slots : nat) (written : list float64)
    (ts nextTs : Z) (j : nat) (v dv : float64) : outcome (list float64) :=
  if ts <? StopTime arg then
    match slots with
    | O => Panic IndexOutOfRange
    | S slots' =>
        let written := written ++ [v] in
        let v := f64_add v dv in
        '(j, nextTs, v, dv) ←
          (if ts >? nextTs then
             let j := S j in
             let nextTs := add64 nextTs (StepTime arg) in
             v ← index (Values arg) j;
             prev ← index (Values arg) (j - 1);
             mret (j, nextTs, v, f64_div (f64_sub prev v) pointsPerInterval)
           else mret (j, nextTs, v, dv));
        resample arg minStepTime pointsPerInterval slots' written
          (add64 ts minStepTime) nextTs j v dv
    end
  else Done (written ++ replicate slots f64_zero).

(** The body of the first inner loop, on the series [arg]. *)
Definition extrapolate_series (l : locals) (arg : MetricData) : outcome (locals * MetricData) :=
  let minStepTime := if StepTime arg <? minStepTime l then StepTime arg else minStepTime l in
  let l := mkLocals (minStart l) (maxStop l) (maxVals l) minStepTime in
  if StepTime arg >? minStepTime then
    let valsCnt :=
      int_of_f64 (Ceil (f64_div (f64_of_int (sub64 (StopTime arg) (StartTime arg)))
                                (f64_of_int minStepTime))) in
    newVals ← make_float64s valsCnt;
    let ts := StartTime arg in
    let nextTs := add64 (StartTime arg) (StepTime arg) in
    let pointsPerInterval := f64_div (f64_of_int (sub64 ts nextTs)) (f64_of_int minStepTime) in
    v ← index (Values arg) 0;
    v0 ← index (Values arg) 0;
    v1 ← index (Values arg) 1;
    let dv := f64_div (f64_sub v0 v1) pointsPerInterval in
    newVals ← resample arg minStepTime pointsPerInterval (length newVals) [] ts nextTs 0 v dv;
    mret (l, mkMetricData (Name arg) (StartTime arg) (StopTime arg) minStepTime newVals (Other arg))
  else mret (l, arg).

(** [if minStart < arg.StartTime { ... }]: zero samples are prepended. *)
Definition pad_start (minStart : Z) (arg : MetricData) : outcome MetricData :=
  if minStart <? StartTime arg then
    valCnt ← quot64 (sub64 (StartTime arg) minStart) (StepTime arg);
    newVals ← make_float64s valCnt;
    mret (mkMetricData (Name arg) minStart (StopTime arg) (StepTime arg)
            (newVals ++ Values arg) (Other arg))
  else mret arg.

(** [if maxStop > arg.StopTime { ... }]: zero samples are appended.  A
    slice is modelled by its contents: on a slice with spare capacity
    [append] writes the zeros into the backing array, where another slice
    over the same array sees them; this sharing is not represented. *)
Definition pad_stop (maxStop : Z) (arg : MetricData) : outcome MetricData :=
  if maxStop >? StopTime arg then
    valCnt ← quot64 (sub64 maxStop (StopTime arg)) (StepTime arg);
    newVals ← make_float64s valCnt;
    mret (mkMetricData (Name arg) (StartTime arg) maxStop (StepTime arg)
            (Values arg ++ newVals) (Other arg))
  else mret arg.

(** The body of the second inner loop, on the series [arg]. *)
Definition pad_series (l : locals) (arg : MetricData) : outcome (locals * MetricData) :=
  let maxVals :=
    if Z.of_nat (length (Values arg)) >? maxVals l
    then Z.of_nat (length (Values arg)) else maxVals l in
  let minStart := if StartTime arg <? minStart l then StartTime arg else minStart l in
  arg ← pad_start minStart arg;
  let maxStop := if StopTime arg >? maxStop l then StopTime arg else maxStop l in
  arg ← pad_stop maxStop arg;
  mret (mkLocals minStart maxStop maxVals (minStepTime l), arg).

(** [for _, arg := range args { body }]: every iteration reads the series
    behind the pointer and writes it back. *)
Fixpoint for_args (body : locals → MetricData → outcome (locals * MetricData))
    (args : list nat) (l : locals) (h : Heap) : outcome (locals * Heap) :=
  match args with
  | [] => mret (l, h)
  | p :: args' =>
      arg ← load h p;
      '(l', arg') ← body l arg;
      for_args body args' l' (<[p := arg']> h)
  end.

(** One iteration of [for j := 0; j < 2; j++]. *)
Definition align_pass (args : list nat) (l : locals) (h : Heap) : outcome (locals * Heap) :=
  '(l, h) ← (if ExtrapolatePoints then for_args extrapolate_series args l h
             else mret (l, h));
  for_args pad_series args l h.

Definition AlignSeries (args : list nat) (h : Heap) : outcome (list nat * Heap) :=
  p0 ← index args 0;
  a0 ← load h p0;
  let l := mkLocals (StartTime a0) (StopTime a0) 0 (StepTime a0) in
  '(l, h) ← align_pass args l h;
  '(l, h) ← align_pass args l h;
  mret (args, h).

(** ** AggregateSeries *)

(** [type AggregateFunc func([]float64) float64]: a function of the
    collected values. *)
Variable function : list float64 → float64.

(** The slice [values] at index [i]: [arg.Values[i]] for every [arg]. *)
Fixpoint collect (h : Heap) (args : list nat) (i : nat) (values : list float64)
    : outcome (list float64) :=
  match args with
  | [] => mret values
  | p :: args' =>
      arg ← load h p;
      x ← index (Values arg) i;
      collect h args' i (values ++ [x])
  end.

(** The sample computed from the collected slice. *)
Definition aggregate_at (out : list float64) (i : nat) (values : list float64)
    : outcome (list float64) :=
  out ← store out i NaN;
  if decide (0 < length values)%nat then store out i (function values)
  else mret out.

(** [for i := range args[0].Values], on the indices [idx]. *)
Fixpoint aggregate_loop (h : Heap) (args : list nat) (idx : list nat) (out : list float64)
    : outcome (list float64) :=
  match idx with
  | [] => mret out
  | i :: idx' =>
      values ← collect h args i [];
      out ← aggregate_at out i values;
      aggregate_loop h args idx' out
  end.

(** The address of a variable that escapes: a location outside the heap. *)
Definition alloc (h : Heap) (d : MetricData) : nat * Heap :=
  let p := fresh (dom h) in (p, <[p := d]> h).

Definition AggregateSeries (e : E) (args : list nat) (h : Heap)
    : outcome ((list nat * option error) * Heap) :=
  '(args, h) ← AlignSeries args h;
  p0 ← index args 0;
  a0 ← load h p0;
  let length := length (Values a0) in
  let name := call_name (Target e) (RawArgs e) in
  let values := replicate length f64_zero in
  values ← aggregate_loop h args (seq 0 length) values;
  let r := mkMetricData name (StartTime a0) (StopTime a0) (StepTime a0) values (Other a0) in
  let '(pr, h) := alloc h r in
  mret (([pr], None), h).

(** ** Resolution of arguments *)

Record State : Type := mkState {
  heap : Heap;
  world : W
}.

(** The package variable [evaluator]: nil until [SetEvaluator] is called,
    then the method [Eval] of the evaluator. *)
Variable evaluator : option (E → Z → Z → V → State → outcome (result * State)).

Definition GetSeriesArg (arg : E) (from until : Z) (values : V) (st : State)
    : outcome (result * State) :=
  if negb (IsName arg) && negb (IsFunc arg) then
    mret (([], Some ErrMissingTimeseries), st)
  else
    match evaluator with
    | None => Panic NilDereference
    | Some Eval =>
        '((a, err), st) ← Eval arg from until values st;
        match err with
        | Some err => mret (([], Some err), st)
        | None => mret ((a, None), st)
        end
    end.

(** The loop of [GetSeriesArgs] over the remaining nodes [e], and the
    statements after it. *)
Fixpoint GetSeriesArgs_from (e : list E) (from until : Z) (values : V)
    (args : list nat) (st : State) : outcome (result * State) :=
  match e with
  | [] =>
      if decide (length args = 0)%nat then mret (([], Some ErrSeriesDoesNotExist), st)
      else mret ((args, None), st)
  | arg :: e' =>
      '((a, err), st) ← GetSeriesArg arg from until values st;
      match err with
      | Some err' =>
          if decide (err' ≠ ErrSeriesDoesNotExist) then mret (([], Some err'), st)
          else GetSeriesArgs_from e' from until values (args ++ a) st
      | None => GetSeriesArgs_from e' from until values (args ++ a) st
      end
  end.

Definition GetSeriesArgs (e : list E) (from until : Z) (values : V) (st : State)
    : outcome (result * State) :=
  GetSeriesArgs_from e from until values [] st.

(** ** ForEachSeriesDo *)

(** The type [seriesFunc]: a function of two series pointers, the input
    and the output template, that returns a series pointer. *)
Variable transform : nat → nat → State → outcome (nat * State).

(** The loop of [ForEachSeriesDo] over the remaining series [arg]. *)
Fixpoint ForEachSeriesDo_from (target : string) (arg : list nat) (results : list nat)
    (st : State) : outcome (list nat * State) :=
  match arg with
  | [] => mret (results, st)
  | a :: arg' =>
      d ← load (heap st) a;
      let r := mkMetricData (call_name target (Name d)) (StartTime d) (StopTime d)
                 (StepTime d) (replicate (length (Values d)) f64_zero) (Other d) in
      let '(pr, h) := alloc (heap st) r in
      '(out, st) ← transform a pr (mkState h (world st));
      ForEachSeriesDo_from target arg' (results ++ [out]) st
  end.

Definition ForEachSeriesDo (e : E) (from until : Z) (values : V) (st : State)
    : outcome (result * State) :=
  arg0 ← index (Args e) 0;
  '((arg, err), st) ← GetSeriesArg arg0 from until values st;
  match err with
  | Some _ => mret (([], Some ErrMissingTimeseries), st)
  | None =>
      '(results, st) ← ForEachSeriesDo_from (Target e) arg [] st;
      mret ((results, None), st)
  end.

End Helper.

Arguments MetricData Rest : clear implicits.
Arguments State Rest W : clear implicits.

(** Modelled from the spec: the classifier [parser.IsNameChar] of the
    parser package, ASCII letters and digits plus the punctuation of the
    query language that may occur in a metric name. *)
Definition IsNameChar_parser (c : ascii) : bool :=
  let n := byteZ c in
  ((97 <=? n) && (n <=? 122)) || ((65 <=? n) && (n <=? 90)) ||
  ((48 <=? n) && (n <=? 57)) ||
  bool_decide (c ∈ ["."; "_"; "-"; "*"; "?"; ":"; "["; "]"; "^"; "$"; "<"; ">";
                    "&"; "#"; "/"; "%"; "@"]%char).

(** [unicode.In] on the empty list of range tables, the value of
    [parser.RangeTables] until tables are configured. *)
Definition no_RangeTables (r : Z) : bool := false.

Definition is_letter (c : ascii) : bool :=
  let n := byteZ c in
  ((97 <=? n) && (n <=? 122)) || ((65 <=? n) && (n <=? 90)).

(** ** A concrete syntax tree and evaluator *)

(** Modelled from the spec: the nodes of the parser package behind the
    interface [parser.Expr]: a name reference, a function call with its
    target, raw argument text and arguments, and literals. *)
#[warnings="-register-all"] Inductive node : Set :=
  | NameNode (name : string)
  | FuncNode (target rawArgs : string) (args : list node)
  | ConstNode (value : Z)
  | StringNode (value : string).

#[global] Instance node_ExprNode : ExprNode node := {|
  IsName e := match e with NameNode _ => true | _ => false end;
  IsFunc e := match e with FuncNode _ _ _ => true | _ => false end;
  Args e := match e with FuncNode _ _ args => args | _ => [] end;
  Target e :=
    match e with
    | NameNode name => name
    | FuncNode target _ _ => target
    | _ => EmptyString
    end;
  RawArgs e := match e with FuncNode _ rawArgs _ => rawArgs | _ => EmptyString end
|}.

(** An evaluator over a store that holds the series [a] at location 1 and
    the two series of [b] at locations 2 and 3; the name [empty] matches
    no series, any other name does not exist.  A function call whose first
    argument is a literal fails with [ErrMissingTimeseries], as the calls
    built on [ForEachSeriesDo] do; other calls are unknown.  The state of
    the evaluator counts its calls. *)
Definition demo_Eval (arg : node) (from until : Z) (values : ())
    (st : State () nat) : outcome (result * State () nat) :=
  let st := mkState (heap st) (S (world st)) in
  match arg with
  | NameNode name =>
      if String.eqb name "a" then Done (([1%nat], None), st)
      else if String.eqb name "b" then Done (([2%nat; 3%nat], None), st)
      else if String.eqb name "empty" then Done (([], None), st)
      else Done (([], Some ErrSeriesDoesNotExist), st)
  | FuncNode _ _ (ConstNode _ :: _) => Done (([], Some ErrMissingTimeseries), st)
  | FuncNode _ _ (StringNode _ :: _) => Done (([], Some ErrMissingTimeseries), st)
  | FuncNode target _ _ => Done (([], Some (ErrUnknownFunction target)), st)
  | _ => Done (([], Some (ErrOther "not a series")), st)
  end.

(** A series of the given name and bounds whose samples are the integers [vs]. *)
Definition series (name : string) (start stop step : Z) (vs : list Z) : MetricData () :=
  mkMetricData name start stop step (f64_of_int <$> vs) ().

Definition demo_heap : gmap nat (MetricData ()) :=
  <[3%nat := series "b.y" 0 180 60 [7; 8; 9]]>
    (<[2%nat := series "b.x" 0 180 60 [4; 5; 6]]>
       (<[1%nat := series "a" 0 180 60 [1; 2; 3]]> ∅)).

Definition demo_state (calls : nat) : State () nat := mkState demo_heap calls.

(** ** Inputs of [AlignSeries] and [AggregateSeries] *)

(** Two series on the grid of step 10: the second one starts one step
    after the first. *)
Definition late_start_heap : gmap nat (MetricData ()) :=
  <[2%nat := series "b" 10 20 10 [3]]> (<[1%nat := series "a" 0 20 10 [1; 2]]> ∅).

(** Two series of step 10 whose starts differ by half a step. *)
Definition off_grid_heap : gmap nat (MetricData ()) :=
  <[2%nat := series "b" 5 15 10 [3]]> (<[1%nat := series "a" 0 20 10 [1; 2]]> ∅).

(** Two series over the same interval: two samples at step 60 and a
    single sample at step 120. *)
Definition coarse_heap : gmap nat (MetricData ()) :=
  <[2%nat := series "b" 0 120 120 [3]]> (<[1%nat := series "a" 0 120 60 [1; 2]]> ∅).

(** A series whose step is zero, after a series that starts earlier. *)
Definition zero_step_heap : gmap nat (MetricData ()) :=
  <[2%nat := series "b" 10 20 0 [3]]> (<[1%nat := series "a" 0 20 10 [1; 2]]> ∅).

(** An aggregate function: the sum of the collected values. *)
Definition sum_values (values : list float64) : float64 :=
  foldl f64_add f64_zero values.

(** The call [sumSeries(a,b)]. *)
Definition sum_call : node :=
  FuncNode "sumSeries" "a,b" [NameNode "a"; NameNode "b"].

(** [late_start_heap] after [AlignSeries]. *)
Definition late_start_aligned : gmap nat (MetricData ()) :=
  <[2%nat := mkMetricData "b" 0 20 10 [f64_zero; f64_of_int 3] ()]> late_start_heap.

(** A transform that copies the samples of the input into the output
    template and returns the template. *)
Definition copy_transform (a r : nat) (st : State () nat) : outcome (nat * State () nat) :=
  da ← load (heap st) a;
  dr ← load (heap st) r;
  let out := mkMetricData (Name dr) (StartTime dr) (StopTime dr) (StepTime dr)
               (Values da) (Other dr) in
  mret (r, mkState (<[r := out]> (heap st)) (world st)).

(** The call [keep(b,2)]. *)
Definition keep_call : node :=
  FuncNode "keep" "b,2" [NameNode "b"; ConstNode 2].

(** * Specifications *)

(** Time stamps for which no difference overflows: the non-negative [int64]. *)
Definition time_ok (t : Z) : Prop := 0 ≤ t < 2 ^ 63.

Section Specifications.

Context {Rest V W E : Type} `{!ExprNode E}.

Implicit Types (d t : MetricData Rest) (h : gmap nat (MetricData Rest)) (l : locals).

(** A series whose step is positive and whose bounds are time stamps. *)
Definition regular d : Prop :=
  0 < StepTime d ∧ time_ok (StartTime d) ∧ time_ok (StopTime d).

(** The series [d] extended to the bounds [m <= StartTime d] and
    [StopTime d <= M] by zero samples. *)
Definition padded (m M : Z) d : MetricData Rest :=
  mkMetricData (Name d) m M (StepTime d)
    (replicate (Z.to_nat ((StartTime d - m) ÷ StepTime d)) f64_zero
     ++ Values d
     ++ replicate (Z.to_nat ((M - StopTime d) ÷ StepTime d)) f64_zero)
    (Other d).

(** The running bounds after the second loop body on [d]. *)
Definition pad_locals l d : locals :=
  mkLocals (Z.min (StartTime d) (minStart l)) (Z.max (StopTime d) (maxStop l))
    (Z.max (Z.of_nat (length (Values d))) (maxVals l)) (minStepTime l).

(** [values] holds the sample of index [i] of every series of [args], in
    the order of [args]. *)
Definition column_at h (args : list nat) (i : nat) (values : list float64) : Prop :=
  Forall2 (λ p x, ∃ d, h !! p = Some d ∧ Values d !! i = Some x) args values.

Variable evaluator :
  option (E → Z → Z → V → State Rest W → outcome (result * State Rest W)).
Variables (from until : Z) (values : V).

(** The nodes [e] are resolved in order from the state [st]: each one
    either succeeds or fails with [ErrSeriesDoesNotExist]; [ls] are the
    series of each node and [st'] is the state after the last one. *)
Inductive resolved : list E → State Rest W → list (list nat) → State Rest W → Prop :=
  | resolved_nil st : resolved [] st [] st
  | resolved_cons arg e st a err st1 ls st2 :
      GetSeriesArg evaluator arg from until values st = Done ((a, err), st1) →
      err = None ∨ err = Some ErrSeriesDoesNotExist →
      resolved e st1 ls st2 →
      resolved (arg :: e) st (a :: ls) st2.

Variable transform : nat → nat → State Rest W → outcome (nat * State Rest W).

(** [t] is the output template of the input [d] in a call of [target]:
    the fields of [d], the name of the call, and as many zero samples as
    [d] has samples. *)
Definition is_template (target : string) d t : Prop :=
  Name t = call_name target (Name d) ∧
  Values t = replicate (length (Values d)) f64_zero ∧
  StartTime t = StartTime d ∧ StopTime t = StopTime d ∧
  StepTime t = StepTime d ∧ Other t = Other d.

(** The calls of the transform on the series [arg], in order, from the
    state [st]: each call receives the input and a template stored at a
    location [pr] that is new in the heap; [outs] are the pointers the calls
    return and [st'] is the state after the last call. *)
Inductive transformed (target : string) :
    list nat → State Rest W → list nat → State Rest W → Prop :=
  | transformed_nil st : transformed target [] st [] st
  | transformed_cons a arg st d pr t out st1 outs st2 :
      heap st !! a = Some d →
      pr = fresh (dom (heap st)) → pr ∉ dom (heap st) →
      is_template target d t →
      transform a pr (mkState (<[pr := t]> (heap st)) (world st)) = Done (out, st1) →
      transformed target arg st1 outs st2 →
      transformed target (a :: arg) st (out :: outs) st2.

End Specifications.

(** The text [€cpu.load)]: the three bytes of the euro sign, which is
    neither a name character nor in a range table, then a metric name. *)
Definition euro_text : string :=
  String (ascii_of_N 0xE2) (String (ascii_of_N 0x82) (String (ascii_of_N 0xAC) "cpu.load)")).

(** * The other functions of the package *)

(** [Contains]: the elements of [[]int] are [int]. *)
Fixpoint Contains (a : list Z) (i : Z) : bool :=
  match a with
  | [] => false
  | aa :: a' => if aa =? i then true else Contains a' i
  end.

(** [strings.Join] of the Go standard library: no element gives the empty
    string, one element gives itself, and otherwise the builder receives
    the first element and then, for every other element, the separator and
    the element. *)
Definition Join (elems : list string) (sep : string) : string :=
  match elems with
  | [] => EmptyString
  | [elem] => elem
  | elem :: elems' => foldl (λ b s, b +:+ sep +:+ s) elem elems'
  end.

(** Modelled from the spec: the method [SetRawArgs] of the interface
    [parser.Expr].  The node is updated in place, which the model renders by
    returning the node. *)
Class ExprRawArgs (E : Type) : Type :=
  SetRawArgs : E → string → E.

(** [SetEvaluator]: the new value of the package variable [evaluator]. *)
Definition SetEvaluator {A : Type} (e : A) : option A := Some e.

Section Helper_names.

Context {Rest V W E : Type} `{!ExprNode E} `{!ExprRawArgs E}.

(** The loop of [RemoveEmptySeriesFromName] over the remaining series. *)
Fixpoint argNames_from (h : gmap nat (MetricData Rest)) (args : list nat)
    (argNames : list string) : outcome (list string) :=
  match args with
  | [] => mret argNames
  | p :: args' =>
      arg ← load h p;
      argNames_from h args' (argNames ++ [Name arg])
  end.

Definition RemoveEmptySeriesFromName (h : gmap nat (MetricData Rest)) (args : list nat)
    : outcome string :=
  argNames ← argNames_from h args [];
  mret (Join argNames ",").

Variable evaluator :
  option (E → Z → Z → V → State Rest W → outcome (result * State Rest W)).

(** [GetSeriesArgsAndRemoveNonExisting]: the node after the call is
    returned with the result. *)
Definition GetSeriesArgsAndRemoveNonExisting (e : E) (from until : Z) (values : V)
    (st : State Rest W) : outcome (result * E * State Rest W) :=
  '((args, err), st) ← GetSeriesArgs evaluator (Args e) from until values st;
  match err with
  | Some err => mret (([], Some err), e, st)
  | None =>
      if decide (length args < length (Args e))%nat then
        names ← RemoveEmptySeriesFromName (heap st) args;
        mret ((args, None), SetRawArgs e names, st)
      else mret ((args, None), e, st)
  end.

End Helper_names.

(** Modelled from the spec: on the concrete nodes, the raw argument text
    is a field of the function calls. *)
#[global] Instance node_ExprRawArgs : ExprRawArgs node := λ e args,
  match e with
  | FuncNode target _ a => FuncNode target args a
  | _ => e
  end.

(** * Further specifications *)

Section Specifications_more.

Context {Rest W : Type}.

Implicit Types (d : MetricData Rest) (h : gmap nat (MetricData Rest)).

(** [d'] is [d] with earlier start, later stop and zero samples before
    and after its samples; name, step and the other fields are kept. *)
Definition extends d d' : Prop :=
  Name d' = Name d ∧ StepTime d' = StepTime d ∧ Other d' = Other d ∧
  StartTime d' ≤ StartTime d ∧ StopTime d ≤ StopTime d' ∧
  ∃ a b : nat, Values d' = replicate a f64_zero ++ Values d ++ replicate b f64_zero.

(** [names] are the names of the series of [args], in order. *)
Definition names_of h (args : list nat) (names : list string) : Prop :=
  Forall2 (λ p n, ∃ d, h !! p = Some d ∧ Name d = n) args names.

(** The series of [rest] are regular and the running bounds are time stamps. *)
Definition pass_ready (rest : list nat) (l : locals) h : Prop :=
  time_ok (minStart l) ∧ time_ok (maxStop l) ∧
  ∀ p, p ∈ rest → ∃ d, h !! p = Some d ∧ regular d.

(** The series [d] lies on the grid of step [s] through [c], and holds
    one sample per step of its interval. *)
Definition on_grid (s c : Z) d : Prop :=
  StepTime d = s ∧ (s | StartTime d - c) ∧
  Z.of_nat (length (Values d)) * s = StopTime d - StartTime d.

(** A transform that keeps every series it is not given as the template. *)
Definition keeps_series (transform : nat → nat → State Rest W → outcome (nat * State Rest W))
    : Prop :=
  ∀ a r st out st', transform a r st = Done (out, st') →
    ∀ p d, p ≠ r → heap st !! p = Some d → heap st' !! p = Some d.

End Specifications_more.

(** The states of the scanner moved [k] bytes to the right. *)
Definition shift_control (k : nat) (c : control) : control :=
  match c with
  | Break => Break
  | Continue start braces i => Continue (k + start) braces (k + i)
  end.

(** Every byte of the text is a name character. *)
Fixpoint all_name_chars (IsNameChar : ascii → bool) (s : string) : bool :=
  match s with
  | EmptyString => true
  | String c s' => IsNameChar c && all_name_chars IsNameChar s'
  end.

(** No byte of the text before the index [i] is a semicolon or a closing
    parenthesis. *)
Definition no_terminator_before (s : string) (i : nat) : Prop :=
  ∀ j c, (j < i)%nat → String.get j s = Some c → c ≠ ";"%char ∧ c ≠ ")"%char.

(** * Properties *)

(** ** Metric-name extraction *)

Section ExtractMetric_facts.

Variable IsNameChar : ascii → bool.
Variable InRangeTables : Z → bool.

Local Abbreviation scan := (scan IsNameChar InRangeTables).
Local Abbreviation scan_step := (scan_step IsNameChar InRangeTables).
Local Abbreviation scan_byte := (scan_byte IsNameChar InRangeTables).
Local Abbreviation ExtractMetric := (ExtractMetric IsNameChar InRangeTables).

Lemma scan_loop (s : string) (start braces i : nat) :
  scan s start braces i =
  match scan_step s start braces i with
  | Break => (start, i)
  | Continue start' braces' i' => scan s start' braces' i'
  end.
Proof.
  rewrite scan_equation_1.
  destruct (inspect (scan_step s start braces i)) as [[|start' braces' i'] H];
    cbn [scan_unfold_clause_1]; rewrite H; reflexivity.
Qed.

Lemma scan_at (s : string) (c : ascii) (start braces i : nat) :
  String.get i s = Some c →
  scan s start braces i =
  match scan_byte s c start braces i with
  | Break => (start, i)
  | Continue start' braces' i' => scan s start' braces' i'
  end.
Proof. intros H. rewrite scan_loop. unfold scan_step. by rewrite H. Qed.

Lemma scan_end (s : string) (start braces i : nat) :
  (String.length s ≤ i)%nat → scan s start braces i = (start, i).
Proof.
  intros H. rewrite scan_loop. unfold scan_step.
  destruct (String.get i s) as [c|] eqn:Hget; [|done].
  apply get_Some_lt in Hget. lia.
Qed.

(** A name character is consumed. *)
Lemma scan_name_char (s : string) (c : ascii) (start braces i : nat) :
  String.get i s = Some c → IsNameChar c = true →
  scan s start braces i = scan s start braces (i + 1).
Proof. intros H Hc. rewrite (scan_at _ _ _ _ _ H). unfold scan_byte. by rewrite Hc. Qed.

(** A byte that is a terminator in every state. *)
Lemma scan_terminator (s : string) (c : ascii) (start braces i : nat) :
  String.get i s = Some c → IsNameChar c = false →
  c = ";"%char ∨ c = ")"%char →
  scan s start braces i = (start, i).
Proof.
  intros H Hc Hor. rewrite (scan_at _ _ _ _ _ H). unfold scan_byte. rewrite Hc.
  destruct Hor as [-> | ->]; reflexivity.
Qed.

Lemma scan_open_brace (s : string) (start braces i : nat) :
  String.get i s = Some "{"%char → IsNameChar "{" = false →
  scan s start braces i = scan s start (braces + 1) (i + 1).
Proof. intros H Hc. rewrite (scan_at _ _ _ _ _ H). unfold scan_byte. by rewrite Hc. Qed.

Lemma scan_close_brace (s : string) (start braces i : nat) :
  String.get i s = Some "}"%char → IsNameChar "}" = false →
  scan s start braces i =
  if Nat.eqb braces 0 then (start, i) else scan s start (braces - 1) (i + 1).
Proof.
  intros H Hc. rewrite (scan_at _ _ _ _ _ H). unfold scan_byte. rewrite Hc. simpl.
  by destruct (Nat.eqb braces 0).
Qed.

Lemma scan_comma (s : string) (start braces i : nat) :
  String.get i s = Some ","%char → IsNameChar "," = false →
  scan s start braces i =
  if Nat.eqb braces 0 then (start, i) else scan s start braces (i + 1).
Proof.
  intros H Hc. rewrite (scan_at _ _ _ _ _ H). unfold scan_byte. rewrite Hc. simpl.
  by destruct (Nat.eqb braces 0).
Qed.

(** Any other byte: the rune at [i] is decoded; outside the range tables
    the start offset becomes [i + 1] while the index advances by the width
    of the rune. *)
Lemma scan_other (s : string) (c : ascii) (start braces i : nat) :
  String.get i s = Some c → IsNameChar c = false →
  c ≠ ";"%char → c ≠ "{"%char → c ≠ "}"%char → c ≠ ","%char → c ≠ ")"%char →
  scan s start braces i =
  let '(r, w) := DecodeRuneInString (suffix s i) in
  if InRangeTables r then scan s start braces (i + w)
  else scan s (i + 1) braces (i + w).
Proof.
  intros H Hc H1 H2 H3 H4 H5. rewrite (scan_at _ _ _ _ _ H). unfold scan_byte. rewrite Hc.
  repeat match goal with
         | Hne : c ≠ ?x |- context [Ascii.eqb c ?x] =>
             rewrite (proj2 (Ascii.eqb_neq c x) Hne)
         end.
  destruct (DecodeRuneInString (suffix s i)) as [r w].
  by destruct (InRangeTables r).
Qed.

(** The width of a decoded rune does not exceed the text it is decoded from. *)
Lemma DecodeRuneInString_within (s : string) :
  ((DecodeRuneInString s).2 ≤ String.length s)%nat.
Proof.
  unfold DecodeRuneInString.
  repeat (match goal with
          | |- context [match ?x with _ => _ end] => destruct x
          end; simpl; try lia).
Qed.

Lemma suffix_length (s : string) (i : nat) :
  (i ≤ String.length s)%nat → String.length (suffix s i) = (String.length s - i)%nat.
Proof.
  unfold suffix. revert i. induction s as [|a s IH]; intros [|i]; simpl; intros Hi;
    try reflexivity; try lia.
  - f_equal. specialize (IH 0%nat). simpl in IH. rewrite Nat.sub_0_r in IH.
    destruct s; [reflexivity|]. apply IH. simpl. lia.
  - apply IH. lia.
Qed.

Lemma scan_step_within (s : string) (start braces i start' braces' i' : nat) :
  scan_step s start braces i = Continue start' braces' i' →
  (start ≤ i → start' ≤ i' ∧ i' ≤ String.length s)%nat.
Proof.
  intros Hstep Hle. destruct (scan_step_Continue _ _ _ _ _ _ _ _ _ Hstep) as (Hlt & Hadv & Hst).
  split; [lia|].
  revert Hstep. unfold scan_step.
  destruct (String.get i s) as [c|] eqn:Hget; [|discriminate].
  pose proof (DecodeRuneInString_within (suffix s i)) as Hw.
  rewrite suffix_length in Hw by lia.
  unfold scan_byte.
  destruct (DecodeRuneInString (suffix s i)) as [r w]; simpl in Hw.
  repeat (match goal with
          | |- context [if ?x then _ else _] => destruct x
          end; try discriminate);
    intros [= <- <- <-]; lia.
Qed.

(** The loop ends with [start <= i <= len(s)]. *)
Lemma scan_within (s : string) (n start braces i : nat) :
  (String.length s - i ≤ n)%nat → (start ≤ i ≤ String.length s)%nat →
  ((scan s start braces i).1 ≤ (scan s start braces i).2 ≤ String.length s)%nat.
Proof.
  revert start braces i. induction n as [|n IH]; intros start braces i Hn Hi.
  - rewrite scan_end by lia. simpl. lia.
  - rewrite scan_loop. destruct (scan_step s start braces i) as [|start' braces' i'] eqn:Hstep.
    + simpl. lia.
    + destruct (scan_step_Continue _ _ _ _ _ _ _ _ _ Hstep) as (Hlt & Hadv & _).
      pose proof (scan_step_within _ _ _ _ _ _ _ Hstep) as Hw.
      apply IH; lia.
Qed.

(** [ExtractMetric] returns on every text: the final slice is in bounds. *)
Lemma ExtractMetric_returns (s : string) :
  ∃ start i : nat, scan s 0 0 0 = (start, i) ∧ (start ≤ i ≤ String.length s)%nat ∧
    ExtractMetric s = Done (substring start (i - start) s).
Proof.
  pose proof (scan_within s (String.length s) 0 0 0) as H.
  unfold ExtractMetric. destruct (scan s 0 0 0) as [start i]; simpl in H.
  exists start, i. split; [reflexivity|]. split; [lia|].
  unfold slice. rewrite decide_True by lia. reflexivity.
Qed.

(** One iteration on a text given by a literal. *)
Ltac scan_literal Hletter Hdot Hsemi Hopen Hclose Hcomma Hparen :=
  erewrite scan_at by reflexivity; unfold scan_byte;
  first [ rewrite Hletter by reflexivity
        | rewrite Hdot | rewrite Hsemi | rewrite Hopen | rewrite Hclose
        | rewrite Hcomma | rewrite Hparen ];
  cbn [Ascii.eqb Bool.eqb Nat.eqb Nat.add Nat.sub].

(** C6.  In [ExtractMetric], with a classifier for which the five
    structural characters are not name characters: a semicolon or a closing
    parenthesis ends the scan in every state; an opening brace increments
    the nesting counter; a closing brace ends the scan when the counter is
    zero and decrements it otherwise; a comma ends the scan exactly when
    the counter is zero.  The scan ended at index [i] with start offset
    [start] yields [s[start:i]].  With letters and the dot as name
    characters, the text [host.{a,b}.load,rest] yields [host.{a,b}.load]. *)
Theorem ExtractMetric_structural_characters :
  IsNameChar ";" = false → IsNameChar ")" = false → IsNameChar "{" = false →
  IsNameChar "}" = false → IsNameChar "," = false →
  (∀ c, is_letter c = true → IsNameChar c = true) → IsNameChar "." = true →
  (∀ s start braces i,
     String.get i s = Some ";"%char ∨ String.get i s = Some ")"%char →
     scan s start braces i = (start, i)) ∧
  (∀ s start braces i, String.get i s = Some "{"%char →
     scan s start braces i = scan s start (braces + 1) (i + 1)) ∧
  (∀ s start braces i, String.get i s = Some "}"%char →
     scan s start braces i =
     if Nat.eqb braces 0 then (start, i) else scan s start (braces - 1) (i + 1)) ∧
  (∀ s start braces i, String.get i s = Some ","%char →
     scan s start braces i =
     if Nat.eqb braces 0 then (start, i) else scan s start braces (i + 1)) ∧
  (∀ s, ∃ start i, scan s 0 0 0 = (start, i) ∧
     ExtractMetric s = Done (substring start (i - start) s)) ∧
  ExtractMetric "host.{a,b}.load,rest" = Done "host.{a,b}.load"%string.
Proof.
  intros Hsemi Hparen Hopen Hclose Hcomma Hletter Hdot.
  split; [|split; [|split; [|split; [|split]]]].
  - intros s start braces i [H | H];
      eapply scan_terminator; eauto.
  - intros. by apply scan_open_brace.
  - intros. by apply scan_close_brace.
  - intros. by apply scan_comma.
  - intros s. destruct (ExtractMetric_returns s) as (start & i & H1 & _ & H2). eauto.
  - unfold ExtractMetric.
    do 16 scan_literal Hletter Hdot Hsemi Hopen Hclose Hcomma Hparen.
    reflexivity.
Qed.

End ExtractMetric_facts.

Lemma IsNameChar_parser_letter (c : ascii) :
  is_letter c = true → IsNameChar_parser c = true.
Proof.
  unfold is_letter, IsNameChar_parser. cbv zeta. intros ->. reflexivity.
Qed.

(** The theorem on the structural characters at the classifier of the
    parser package and no range tables. *)
Lemma ExtractMetric_structural_characters_witness :
  ExtractMetric IsNameChar_parser no_RangeTables "host.{a,b}.load,rest"
  = Done "host.{a,b}.load"%string.
Proof.
  apply (ExtractMetric_structural_characters IsNameChar_parser no_RangeTables);
    solve [reflexivity | exact IsNameChar_parser_letter].
Defined.

(** The work sample of the comment in [ExtractMetric]. *)
Example ExtractMetric_work_sample :
  ExtractMetric IsNameChar_parser no_RangeTables "bla(bla{bl,a}b[la,b]la)"
  = Done "bla{bl,a}b[la"%string.
Proof. vm_compute. reflexivity. Qed.

(** C9.  On a text that begins with a three-byte rune outside the range
    tables, [ExtractMetric] advances the start offset by one byte only, while
    the index advances by the three bytes of the rune: the result keeps the
    two continuation bytes of the discarded rune in front of the name. *)
Theorem ExtractMetric_multibyte_noise :
  DecodeRuneInString euro_text = (0x20AC, 3%nat) ∧
  scan IsNameChar_parser no_RangeTables euro_text 0 0 0 = (1%nat, 11%nat) ∧
  ExtractMetric IsNameChar_parser no_RangeTables euro_text
  = Done (String (ascii_of_N 0x82) (String (ascii_of_N 0xAC) "cpu.load")) ∧
  ExtractMetric IsNameChar_parser no_RangeTables euro_text ≠ Done "cpu.load"%string.
Proof. vm_compute. repeat split; discriminate. Qed.

(** ** Resolution of arguments *)

Section Resolver_facts.

Context {Rest V W E : Type} `{!ExprNode E}.

Variable evaluator :
  option (E → Z → Z → V → State Rest W → outcome (result * State Rest W)).

Variables (from until : Z) (values : V).

Local Abbreviation GetSeriesArg := (GetSeriesArg evaluator).
Local Abbreviation GetSeriesArgs_from := (GetSeriesArgs_from evaluator).
Local Abbreviation GetSeriesArgs := (GetSeriesArgs evaluator).
Local Abbreviation resolved := (resolved evaluator from until values).

(** A node that cannot denote series: the evaluator is not called. *)
Lemma GetSeriesArg_literal (arg : E) (st : State Rest W) :
  IsName arg = false → IsFunc arg = false →
  GetSeriesArg arg from until values st = Done (([], Some ErrMissingTimeseries), st).
Proof. intros Hn Hf. unfold GetSeriesArg. by rewrite Hn, Hf. Qed.

(** A name or a function call: the result of the evaluator. *)
Lemma GetSeriesArg_delegates (arg : E) (st : State Rest W) Eval :
  IsName arg = true ∨ IsFunc arg = true → evaluator = Some Eval →
  GetSeriesArg arg from until values st =
  match Eval arg from until values st with
  | Done ((a, None), st') => Done ((a, None), st')
  | Done ((_, Some err), st') => Done (([], Some err), st')
  | Panic p => Panic p
  end.
Proof.
  intros Hk ->. unfold GetSeriesArg.
  replace (negb (IsName arg) && negb (IsFunc arg)) with false
    by (destruct Hk as [-> | ->]; by rewrite ?andb_false_r).
  destruct (Eval arg from until values st) as [[[a [err|]] st']|p]; reflexivity.
Qed.

(** With an error, [GetSeriesArg] returns no series. *)
Lemma GetSeriesArg_error_no_series (arg : E) (st st' : State Rest W) a err :
  GetSeriesArg arg from until values st = Done ((a, Some err), st') → a = [].
Proof.
  unfold GetSeriesArg. destruct (negb (IsName arg) && negb (IsFunc arg)).
  - by intros [= <- _ _].
  - destruct evaluator as [Eval|]; [|discriminate].
    destruct (Eval arg from until values st) as [[[a' [err'|]] st'']|p]; simpl;
      [by intros [= <- _ _] | discriminate | discriminate].
Qed.

Lemma GetSeriesArgs_from_resolved e st ls st' :
  resolved e st ls st' → ∀ e' args,
  GetSeriesArgs_from (e ++ e') from until values args st
  = GetSeriesArgs_from e' from until values (args ++ concat ls) st'.
Proof.
  induction 1 as [st | arg e st a err st1 ls st2 Harg Herr _ IH]; intros e' args.
  - simpl. by rewrite app_nil_r.
  - simpl. rewrite Harg. simpl.
    destruct Herr as [-> | ->]; simpl; rewrite IH; by rewrite <- app_assoc.
Qed.

Lemma resolved_missing_empty arg e st a st1 ls st2 :
  GetSeriesArg arg from until values st = Done ((a, Some ErrSeriesDoesNotExist), st1) →
  resolved e st1 ls st2 → resolved (arg :: e) st ([] :: ls) st2.
Proof.
  intros Harg Hres. pose proof (GetSeriesArg_error_no_series _ _ _ _ _ Harg) as ->.
  econstructor; eauto.
Qed.

(** C3.  [GetSeriesArgs] resolves the nodes in order and concatenates the
    series.  When every node succeeds or fails with [ErrSeriesDoesNotExist]
    (such a node contributes no series), the result is the concatenation,
    or the error [ErrSeriesDoesNotExist] when the concatenation is empty.
    When the nodes before [arg] are so resolved and [arg] fails with another
    error, that error is returned in the state reached after [arg]: the
    nodes after it are not resolved.  For three nodes of which the middle
    one resolves to no series and the other two to [l1] and [l3], not both
    empty, the result is [l1 ++ l3] without error. *)
Theorem GetSeriesArgs_tolerant :
  (∀ arg st a st1,
     GetSeriesArg arg from until values st
     = Done ((a, Some ErrSeriesDoesNotExist), st1) → a = []) ∧
  (∀ e st ls st',
     resolved e st ls st' →
     GetSeriesArgs e from until values st
     = Done (if decide (concat ls = []) then (([], Some ErrSeriesDoesNotExist), st')
             else ((concat ls, None), st'))) ∧
  (∀ e arg e' st ls st1 a err st2,
     resolved e st ls st1 →
     GetSeriesArg arg from until values st1 = Done ((a, Some err), st2) →
     err ≠ ErrSeriesDoesNotExist →
     GetSeriesArgs (e ++ arg :: e') from until values st = Done (([], Some err), st2)) ∧
  (∀ n1 n2 n3 st l1 st1 st2 l3 st3,
     GetSeriesArg n1 from until values st = Done ((l1, None), st1) →
     GetSeriesArg n2 from until values st1 = Done (([], None), st2) →
     GetSeriesArg n3 from until values st2 = Done ((l3, None), st3) →
     l1 ++ l3 ≠ [] →
     GetSeriesArgs [n1; n2; n3] from until values st = Done ((l1 ++ l3, None), st3)).
Proof.
  split; [|split; [|split]].
  - intros arg st a st1 H. by eapply GetSeriesArg_error_no_series.
  - intros e st ls st' Hres. unfold GetSeriesArgs.
    pose proof (GetSeriesArgs_from_resolved _ _ _ _ Hres [] []) as Heq.
    rewrite app_nil_r in Heq. rewrite Heq. simpl.
    destruct (concat ls) as [|x l]; simpl; repeat case_decide; done.
  - intros e arg e' st ls st1 a err st2 Hres Harg Hne. unfold GetSeriesArgs.
    rewrite (GetSeriesArgs_from_resolved _ _ _ _ Hres). simpl.
    rewrite Harg. simpl. by case_decide.
  - intros n1 n2 n3 st l1 st1 st2 l3 st3 H1 H2 H3 Hne. unfold GetSeriesArgs.
    simpl. rewrite H1. simpl. rewrite H2. simpl. rewrite H3. simpl.
    rewrite app_nil_r. destruct (l1 ++ l3) as [|x l] eqn:Hc; [done|].
    simpl. reflexivity.
Qed.

(** C8, as amended.  [GetSeriesArg] fails with [ErrMissingTimeseries],
    without calling the evaluator, when the node is neither a name nor a
    function call.  Otherwise it returns what the evaluator returns: its
    series unchanged when it reports no error, and its error unchanged (with
    no series) when it reports one. *)
Theorem GetSeriesArg_resolution (arg : E) (st : State Rest W) :
  (IsName arg = false → IsFunc arg = false →
   GetSeriesArg arg from until values st
   = Done (([], Some ErrMissingTimeseries), st)) ∧
  (IsName arg = true ∨ IsFunc arg = true →
   ∀ Eval, evaluator = Some Eval →
   (∀ a st', Eval arg from until values st = Done ((a, None), st') →
      GetSeriesArg arg from until values st = Done ((a, None), st')) ∧
   (∀ a err st', Eval arg from until values st = Done ((a, Some err), st') →
      GetSeriesArg arg from until values st = Done (([], Some err), st'))).
Proof.
  split.
  - apply GetSeriesArg_literal.
  - intros Hk Eval Hev. rewrite (GetSeriesArg_delegates _ _ _ Hk Hev).
    split; intros; by match goal with H : Eval _ _ _ _ _ = _ |- _ => rewrite H end.
Qed.

End Resolver_facts.

(** C8, as stated, fails: the evaluator may itself fail with
    [ErrMissingTimeseries] on a function call, and [GetSeriesArg] returns
    that error although the node is a function call. *)
Lemma GetSeriesArg_missing_from_evaluator :
  IsFunc (FuncNode "scale" "7" [ConstNode 7]) = true ∧
  GetSeriesArg (Some demo_Eval) (FuncNode "scale" "7" [ConstNode 7]) 0 60 () (demo_state 0)
  = Done (([], Some ErrMissingTimeseries), demo_state 1).
Proof. split; reflexivity. Qed.

Lemma GetSeriesArg_resolution_witness :
  GetSeriesArg (Some demo_Eval) (ConstNode 7) 0 60 () (demo_state 0)
  = Done (([], Some ErrMissingTimeseries), demo_state 0) ∧
  GetSeriesArg (Some demo_Eval) (NameNode "b") 0 60 () (demo_state 0)
  = Done (([2%nat; 3%nat], None), demo_state 1).
Proof.
  split.
  - apply (GetSeriesArg_resolution (Some demo_Eval) 0 60 () (ConstNode 7) (demo_state 0));
      reflexivity.
  - assert (Hk : IsName (NameNode "b") = true ∨ IsFunc (NameNode "b") = true)
      by (left; reflexivity).
    apply (proj1 (proj2 (GetSeriesArg_resolution (Some demo_Eval) 0 60 () (NameNode "b")
                           (demo_state 0)) Hk demo_Eval eq_refl)).
    reflexivity.
Defined.

Lemma GetSeriesArgs_tolerant_witness :
  GetSeriesArgs (Some demo_Eval) [NameNode "a"; NameNode "empty"; NameNode "b"] 0 60 ()
    (demo_state 0)
  = Done (([1%nat; 2%nat; 3%nat], None), demo_state 3).
Proof.
  apply (proj2 (proj2 (proj2 (GetSeriesArgs_tolerant (Some demo_Eval) 0 60 ())))
           (NameNode "a") (NameNode "empty") (NameNode "b") (demo_state 0)
           [1%nat] (demo_state 1) (demo_state 2) [2%nat; 3%nat] (demo_state 3));
    solve [reflexivity | discriminate].
Defined.

(** A node that does not exist is skipped, and another error stops the
    resolution before the nodes after it are evaluated. *)
Example GetSeriesArgs_skips_and_aborts :
  GetSeriesArgs (Some demo_Eval) [NameNode "a"; NameNode "ghost"; NameNode "b"] 0 60 ()
    (demo_state 0)
  = Done (([1%nat; 2%nat; 3%nat], None), demo_state 3) ∧
  GetSeriesArgs (Some demo_Eval) [NameNode "a"; FuncNode "f" "" []; NameNode "b"] 0 60 ()
    (demo_state 0)
  = Done (([], Some (ErrUnknownFunction "f")), demo_state 2) ∧
  GetSeriesArgs (Some demo_Eval) [NameNode "ghost"; NameNode "empty"] 0 60 ()
    (demo_state 0)
  = Done (([], Some ErrSeriesDoesNotExist), demo_state 2).
Proof. repeat split; reflexivity. Qed.

(** ** Alignment *)

Lemma bind_Panic {A B : Type} (m : outcome A) (k : A → outcome B) (p : panic) :
  m ≫= k = Panic p → m = Panic p ∨ ∃ a, m = Done a ∧ k a = Panic p.
Proof. destruct m as [a|q]; simpl; [eauto | intros [= ->]; by left]. Qed.

Lemma wrap64_small (z : Z) : int64_range z → wrap64 z = z.
Proof. unfold int64_range, wrap64. intros H. rewrite Z.mod_small; lia. Qed.

Lemma IsNaN_zero : IsNaN f64_zero = false.
Proof. reflexivity. Qed.

Lemma quot64_small (a b s : Z) :
  time_ok a → time_ok b → b ≤ a → 0 < s →
  quot64 (sub64 a b) s = Done ((a - b) ÷ s) ∧ 0 ≤ (a - b) ÷ s.
Proof.
  unfold time_ok, quot64, sub64. intros Ha Hb Hle Hs.
  destruct (Z.eqb_spec s 0) as [->|_]; [lia|].
  rewrite (wrap64_small (a - b)) by (unfold int64_range; lia).
  assert (0 ≤ (a - b) ÷ s ≤ a - b) as Hq.
  { split; [apply Z.quot_pos; lia|].
    rewrite Z.quot_div_nonneg by lia.
    apply Z.div_le_upper_bound; [lia|]. nia. }
  rewrite wrap64_small by (unfold int64_range; lia). split; [reflexivity | lia].
Qed.

Lemma make_float64s_nonneg (n : Z) :
  0 ≤ n → make_float64s n = Done (replicate (Z.to_nat n) f64_zero).
Proof. intros H. unfold make_float64s. destruct (Z.ltb_spec n 0); [lia | reflexivity]. Qed.

Section Align_facts.

Context {Rest : Type}.

Implicit Types (d : MetricData Rest) (h : gmap nat (MetricData Rest)) (l : locals).

Lemma pad_start_padded (m : Z) d :
  0 < StepTime d → time_ok (StartTime d) → time_ok m → m ≤ StartTime d →
  pad_start m d
  = Done (mkMetricData (Name d) m (StopTime d) (StepTime d)
            (replicate (Z.to_nat ((StartTime d - m) ÷ StepTime d)) f64_zero ++ Values d)
            (Other d)).
Proof.
  intros Hstep Hstart Hm Hle. unfold pad_start.
  destruct (Z.ltb_spec m (StartTime d)) as [Hlt | Hge].
  - destruct (quot64_small (StartTime d) m (StepTime d)) as [-> Hq]; [done|done|lia|done|].
    simpl. by rewrite make_float64s_nonneg.
  - assert (StartTime d = m) as <- by lia.
    rewrite Z.sub_diag, Z.quot_0_l by lia. simpl. by destruct d.
Qed.

Lemma pad_stop_padded (M : Z) d :
  0 < StepTime d → time_ok (StopTime d) → time_ok M → StopTime d ≤ M →
  pad_stop M d
  = Done (mkMetricData (Name d) (StartTime d) M (StepTime d)
            (Values d ++ replicate (Z.to_nat ((M - StopTime d) ÷ StepTime d)) f64_zero)
            (Other d)).
Proof.
  intros Hstep Hstop HM Hle. unfold pad_stop.
  destruct (Z.gtb_spec M (StopTime d)) as [Hlt | Hge].
  - destruct (quot64_small M (StopTime d) (StepTime d)) as [-> Hq]; [done|done|lia|done|].
    simpl. by rewrite make_float64s_nonneg.
  - assert (StopTime d = M) as <- by lia.
    rewrite Z.sub_diag, Z.quot_0_l by lia. simpl. rewrite app_nil_r. by destruct d.
Qed.

(** The second loop body on a regular series: the running bounds become
    the least start and the greatest stop, and the series is extended to
    them. *)
Lemma pad_series_padded l d :
  regular d → time_ok (minStart l) → time_ok (maxStop l) →
  pad_series l d
  = Done (pad_locals l d, padded (minStart (pad_locals l d)) (maxStop (pad_locals l d)) d).
Proof.
  intros (Hstep & Hstart & Hstop) Hm HM. unfold pad_series, pad_locals, padded. simpl.
  replace (if StartTime d <? minStart l then StartTime d else minStart l)
    with (Z.min (StartTime d) (minStart l))
    by (destruct (Z.ltb_spec (StartTime d) (minStart l)); lia).
  replace (if Z.of_nat (length (Values d)) >? maxVals l
           then Z.of_nat (length (Values d)) else maxVals l)
    with (Z.max (Z.of_nat (length (Values d))) (maxVals l))
    by (destruct (Z.gtb_spec (Z.of_nat (length (Values d))) (maxVals l)); lia).
  rewrite pad_start_padded by (unfold time_ok in *; lia). simpl.
  replace (if StopTime d >? maxStop l then StopTime d else maxStop l)
    with (Z.max (StopTime d) (maxStop l))
    by (destruct (Z.gtb_spec (StopTime d) (maxStop l)); lia).
  rewrite pad_stop_padded by (simpl; unfold time_ok in *; lia). simpl.
  by rewrite <- app_assoc.
Qed.

Lemma load_Done h (p : nat) d : load h p = Done d ↔ h !! p = Some d.
Proof. unfold load. destruct (h !! p); split; congruence. Qed.

Lemma load_Some h (p : nat) d : h !! p = Some d → load h p = Done d.
Proof. apply load_Done. Qed.

(** A loop over the series writes through their pointers only: no series
    is allocated and the series outside [args] are untouched. *)
Lemma for_args_in_place body (args : list nat) l h l' h' :
  for_args body args l h = Done (l', h') →
  dom h' = dom h ∧ ∀ p, p ∉ args → h' !! p = h !! p.
Proof.
  revert l h. induction args as [|p args IH]; intros l h; simpl.
  - intros [= <- <-]. done.
  - intros H. apply bind_Done in H as (d & Hload & H).
    apply bind_Done in H as ([l1 d1] & Hbody & H).
    apply IH in H as (Hdom & Hframe). apply load_Done in Hload.
    split.
    + rewrite Hdom, dom_insert_L.
      assert (p ∈ dom h) by (apply elem_of_dom; eauto).
      apply set_eq. intros q. rewrite elem_of_union, elem_of_singleton.
      split; [intros [->|?]; done | by right].
    + intros q Hq. apply not_elem_of_cons in Hq as [Hne Hq].
      rewrite Hframe by done. by apply lookup_insert_ne.
Qed.

(** The rule of the loop invariant. *)
Lemma for_args_invariant body (Inv : locals → gmap nat (MetricData Rest) → Prop)
    (args : list nat) :
  (∀ p l h, p ∈ args → Inv l h →
     ∃ d l' d', h !! p = Some d ∧ body l d = Done (l', d') ∧ Inv l' (<[p := d']> h)) →
  ∀ l h, Inv l h → ∃ l' h', for_args body args l h = Done (l', h') ∧ Inv l' h'.
Proof.
  induction args as [|p args IH]; intros Hstep l h Hinv; simpl.
  - eauto.
  - destruct (Hstep p l h) as (d & l1 & d1 & Hp & Hbody & Hinv1);
      [apply elem_of_cons; by left|done|].
    rewrite (load_Some _ _ _ Hp). simpl. rewrite Hbody. simpl.
    apply IH; [|done]. intros q l2 h2 Hq. apply Hstep. apply elem_of_cons. by right.
Qed.

(** A loop whose body never fails on an index does not fail on an index. *)
Lemma for_args_no_index_panic body (args : list nat) l h :
  (∀ l d, body l d ≠ Panic IndexOutOfRange) →
  for_args body args l h ≠ Panic IndexOutOfRange.
Proof.
  intros Hbody. revert l h. induction args as [|p args IH]; intros l h; simpl; [done|].
  unfold load. destruct (h !! p) as [d|]; simpl; [|discriminate].
  destruct (body l d) as [[l1 d1]|pn] eqn:Hb; simpl; [apply IH|].
  intros [= ->]. by apply (Hbody l d).
Qed.

Lemma pad_series_no_index_panic l d : pad_series l d ≠ Panic IndexOutOfRange.
Proof.
  unfold pad_series, pad_start, pad_stop, quot64, make_float64s.
  repeat (match goal with
          | |- context [if ?b then _ else _] => destruct b
          end; simpl; try done).
Qed.

Lemma align_pass_no_index_panic (args : list nat) l h :
  align_pass false args l h ≠ Panic IndexOutOfRange.
Proof.
  unfold align_pass. simpl. apply for_args_no_index_panic, pad_series_no_index_panic.
Qed.

Lemma padded_regular (m M : Z) d :
  regular d → time_ok m → time_ok M → regular (padded m M d).
Proof. intros (? & ? & ?) ? ?. unfold regular, padded. simpl. done. Qed.

(** With extrapolation disabled, a pass over regular series returns and
    leaves regular series. *)
Lemma pad_pass_returns (args : list nat) l h :
  time_ok (minStart l) → time_ok (maxStop l) →
  (∀ p, p ∈ args → ∃ d, h !! p = Some d ∧ regular d) →
  ∃ l' h', align_pass false args l h = Done (l', h') ∧
    time_ok (minStart l') ∧ time_ok (maxStop l') ∧
    (∀ p, p ∈ args → ∃ d, h' !! p = Some d ∧ regular d).
Proof.
  intros Hm HM Hreg. unfold align_pass. simpl.
  destruct (for_args_invariant pad_series
              (λ l h, time_ok (minStart l) ∧ time_ok (maxStop l) ∧
                      ∀ p, p ∈ args → ∃ d, h !! p = Some d ∧ regular d) args)
    with (l := l) (h := h) as (l' & h' & Hrun & Hinv); [|done|by eauto].
  intros p l1 h1 Hp (Hm1 & HM1 & Hreg1).
  destruct (Hreg1 p Hp) as (d & Hd & Hrd).
  exists d, (pad_locals l1 d), (padded (minStart (pad_locals l1 d)) (maxStop (pad_locals l1 d)) d).
  split; [done|]. split; [by apply pad_series_padded|].
  assert (time_ok (minStart (pad_locals l1 d)) ∧ time_ok (maxStop (pad_locals l1 d)))
    as [Hm2 HM2].
  { destruct Hrd as (_ & ? & ?). unfold time_ok in *. simpl. lia. }
  split; [done|]. split; [done|].
  intros q Hq. destruct (decide (q = p)) as [->|Hne].
  - rewrite lookup_insert_eq. eexists. split; [done|]. by apply padded_regular.
  - rewrite lookup_insert_ne by done. by apply Hreg1.
Qed.

End Align_facts.

Section AlignSeries_claims.

Context {Rest : Type}.

Implicit Types (d : MetricData Rest) (h : gmap nat (MetricData Rest)) (l : locals).

(** [AlignSeries] returns its argument and writes through the pointers
    of [args] only. *)
Lemma AlignSeries_in_place (ep : bool) (args args' : list nat) h h' :
  AlignSeries ep args h = Done (args', h') →
  args' = args ∧ dom h' = dom h ∧ ∀ p, p ∉ args → h' !! p = h !! p.
Proof.
  unfold AlignSeries, align_pass. intros H.
  apply bind_Done in H as (p0 & _ & H). apply bind_Done in H as (a0 & _ & H).
  apply bind_Done in H as ([l1 h1] & H1 & H). apply bind_Done in H as ([l2 h2] & H2 & H).
  injection H as <- <-.
  assert (∀ l h l' h', ((if ep then for_args extrapolate_series args l h else mret (l, h))
            ≫= λ '(l, h), for_args pad_series args l h) = Done (l', h') →
            dom h' = dom h ∧ ∀ p, p ∉ args → h' !! p = h !! p) as Hpass.
  { intros l h0 l' h0' Hp. apply bind_Done in Hp as ([la ha] & Ha & Hb).
    apply for_args_in_place in Hb as (Hd & Hf).
    destruct ep.
    - apply for_args_in_place in Ha as (Hd' & Hf'). split; [congruence|].
      intros p Hp. rewrite Hf, Hf'; done.
    - injection Ha as <- <-. done. }
  apply Hpass in H1 as (Hd1 & Hf1). apply Hpass in H2 as (Hd2 & Hf2).
  split; [done|]. split; [congruence|]. intros p Hp. rewrite Hf2, Hf1; done.
Qed.

Lemma padded_self d :
  0 < StepTime d → padded (StartTime d) (StopTime d) d = d.
Proof.
  intros Hs. unfold padded. rewrite !Z.sub_diag, Z.quot_0_l by lia. simpl.
  rewrite app_nil_r. by destruct d.
Qed.

Lemma padded_padded (m M : Z) d :
  0 < StepTime d → padded m M (padded m M d) = padded m M d.
Proof.
  intros Hs. unfold padded at 1. simpl.
  rewrite !Z.sub_diag, Z.quot_0_l by lia. simpl. by rewrite app_nil_r.
Qed.

Lemma padded_length (m M : Z) d :
  length (Values (padded m M d))
  = (Z.to_nat ((StartTime d - m) ÷ StepTime d) + length (Values d)
     + Z.to_nat ((M - StopTime d) ÷ StepTime d))%nat.
Proof. unfold padded. simpl. rewrite !length_app, !length_replicate. lia. Qed.

(** A difference of time stamps that fits [int64] is computed exactly,
    whatever the sign of the time stamps. *)
Lemma quot64_span (a b s : Z) :
  b ≤ a → a - b < 2 ^ 63 → 0 < s →
  quot64 (sub64 a b) s = Done ((a - b) ÷ s) ∧ 0 ≤ (a - b) ÷ s.
Proof.
  unfold quot64, sub64. intros Hle Hspan Hs.
  destruct (Z.eqb_spec s 0) as [->|_]; [lia|].
  rewrite (wrap64_small (a - b)) by (unfold int64_range; lia).
  assert (0 ≤ (a - b) ÷ s ≤ a - b) as Hq.
  { split; [apply Z.quot_pos; lia|].
    rewrite Z.quot_div_nonneg by lia.
    apply Z.div_le_upper_bound; [lia|]. nia. }
  rewrite wrap64_small by (unfold int64_range; lia). split; [reflexivity | lia].
Qed.

Lemma pad_start_span (m : Z) d :
  0 < StepTime d → m ≤ StartTime d → StartTime d - m < 2 ^ 63 →
  pad_start m d
  = Done (mkMetricData (Name d) m (StopTime d) (StepTime d)
            (replicate (Z.to_nat ((StartTime d - m) ÷ StepTime d)) f64_zero ++ Values d)
            (Other d)).
Proof.
  intros Hstep Hle Hspan. unfold pad_start.
  destruct (Z.ltb_spec m (StartTime d)) as [Hlt | Hge].
  - destruct (quot64_span (StartTime d) m (StepTime d)) as [-> Hq]; [done..|].
    simpl. by rewrite make_float64s_nonneg.
  - assert (StartTime d = m) as <- by lia.
    rewrite Z.sub_diag, Z.quot_0_l by lia. simpl. by destruct d.
Qed.

Lemma pad_stop_span (M : Z) d :
  0 < StepTime d → StopTime d ≤ M → M - StopTime d < 2 ^ 63 →
  pad_stop M d
  = Done (mkMetricData (Name d) (StartTime d) M (StepTime d)
            (Values d ++ replicate (Z.to_nat ((M - StopTime d) ÷ StepTime d)) f64_zero)
            (Other d)).
Proof.
  intros Hstep Hle Hspan. unfold pad_stop.
  destruct (Z.gtb_spec M (StopTime d)) as [Hlt | Hge].
  - destruct (quot64_span M (StopTime d) (StepTime d)) as [-> Hq]; [lia|done|done|].
    simpl. by rewrite make_float64s_nonneg.
  - assert (StopTime d = M) as <- by lia.
    rewrite Z.sub_diag, Z.quot_0_l by lia. simpl. rewrite app_nil_r. by destruct d.
Qed.

(** The second loop body on a series of positive step, when neither
    difference of time stamps overflows. *)
Lemma pad_series_span l d :
  0 < StepTime d →
  StartTime d - Z.min (StartTime d) (minStart l) < 2 ^ 63 →
  Z.max (StopTime d) (maxStop l) - StopTime d < 2 ^ 63 →
  pad_series l d
  = Done (pad_locals l d, padded (minStart (pad_locals l d)) (maxStop (pad_locals l d)) d).
Proof.
  intros Hstep Hlo Hhi. unfold pad_series, pad_locals, padded. simpl.
  replace (if StartTime d <? minStart l then StartTime d else minStart l)
    with (Z.min (StartTime d) (minStart l))
    by (destruct (Z.ltb_spec (StartTime d) (minStart l)); lia).
  replace (if Z.of_nat (length (Values d)) >? maxVals l
           then Z.of_nat (length (Values d)) else maxVals l)
    with (Z.max (Z.of_nat (length (Values d))) (maxVals l))
    by (destruct (Z.gtb_spec (Z.of_nat (length (Values d))) (maxVals l)); lia).
  rewrite pad_start_span by (done || lia). simpl.
  replace (if StopTime d >? maxStop l then StopTime d else maxStop l)
    with (Z.max (StopTime d) (maxStop l))
    by (destruct (Z.gtb_spec (StopTime d) (maxStop l)); lia).
  rewrite pad_stop_span by (simpl; done || lia). simpl.
  by rewrite <- app_assoc.
Qed.

(** One pass over two distinct series of positive step, with
    extrapolation disabled. *)
Lemma align_pass_pair l h (p q : nat) dp dq :
  p ≠ q → h !! p = Some dp → h !! q = Some dq →
  0 < StepTime dp → 0 < StepTime dq →
  StartTime dp - Z.min (StartTime dp) (minStart l) < 2 ^ 63 →
  Z.max (StopTime dp) (maxStop l) - StopTime dp < 2 ^ 63 →
  StartTime dq - Z.min (StartTime dq) (minStart (pad_locals l dp)) < 2 ^ 63 →
  Z.max (StopTime dq) (maxStop (pad_locals l dp)) - StopTime dq < 2 ^ 63 →
  align_pass false [p; q] l h
  = Done (pad_locals (pad_locals l dp) dq,
          <[q := padded (minStart (pad_locals (pad_locals l dp) dq))
                        (maxStop (pad_locals (pad_locals l dp) dq)) dq]>
            (<[p := padded (minStart (pad_locals l dp)) (maxStop (pad_locals l dp)) dp]> h)).
Proof.
  intros Hne Hp Hq Hsp Hsq Hp1 Hp2 Hq1 Hq2. unfold align_pass. simpl.
  rewrite (load_Some _ _ _ Hp). simpl.
  rewrite pad_series_span by done. simpl.
  rewrite (load_Some _ q dq) by (by rewrite lookup_insert_ne).
  simpl. by rewrite pad_series_span.
Qed.

(** [AlignSeries] on two distinct series of positive step whose bounds
    span less than [2 ^ 63], with extrapolation disabled: both are extended
    by zero samples to the least start and the greatest stop. *)
Lemma AlignSeries_pair h (p q : nat) dp dq :
  p ≠ q → h !! p = Some dp → h !! q = Some dq →
  0 < StepTime dp → 0 < StepTime dq →
  StartTime dp ≤ StopTime dp → StartTime dq ≤ StopTime dq →
  Z.max (StopTime dp) (StopTime dq) - Z.min (StartTime dp) (StartTime dq) < 2 ^ 63 →
  AlignSeries false [p; q] h
  = Done ([p; q],
          <[q := padded (Z.min (StartTime dp) (StartTime dq))
                        (Z.max (StopTime dp) (StopTime dq)) dq]>
            (<[p := padded (Z.min (StartTime dp) (StartTime dq))
                           (Z.max (StopTime dp) (StopTime dq)) dp]> h)).
Proof.
  intros Hne Hp Hq Hsp Hsq Hop Hoq Hspan. unfold AlignSeries.
  cbn [index lookup list_lookup mbind outcome_bind].
  rewrite (load_Some _ _ _ Hp). cbn [mbind outcome_bind].
  rewrite (align_pass_pair _ h p q dp dq) by (done || (simpl; lia)).
  cbn [mbind outcome_bind]. unfold pad_locals at 1 2 3 4 5 6. simpl.
  rewrite !Z.min_id, !Z.max_id. rewrite padded_self by done.
  set (m := Z.min (StartTime dq) (StartTime dp)).
  set (M := Z.max (StopTime dq) (StopTime dp)).
  erewrite (align_pass_pair _ _ p q); [| done | .. ].
  2: { rewrite lookup_insert_ne by done. apply lookup_insert_eq. }
  2: { apply lookup_insert_eq. }
  2, 3: done.
  2, 3, 4, 5: simpl; lia.
  cbn [mbind outcome_bind mret outcome_ret]. f_equal. f_equal.
  unfold pad_locals. simpl.
  replace (Z.min (StartTime dp) m) with m by lia.
  replace (Z.max (StopTime dp) M) with M by lia.
  rewrite !Z.min_id, !Z.max_id. rewrite padded_padded by done.
  replace (Z.min (StartTime dp) (StartTime dq)) with m by lia.
  replace (Z.max (StopTime dp) (StopTime dq)) with M by lia.
  apply map_eq. intros k. rewrite !lookup_insert. by repeat case_decide.
Qed.

(** The lengths of two series of step [s] after their extension to the
    start [t0] of the first and to the greater stop: they are equal exactly
    when the two starts lie on one grid of step [s] or the series that
    starts later does not end before the other. *)
Lemma padded_pair_lengths (s t0 t1 : Z) (n0 n1 : nat) :
  0 < s → t0 < t1 →
  let eA := t0 + Z.of_nat n0 * s in
  let eB := t1 + Z.of_nat n1 * s in
  let M := Z.max eA eB in
  (Z.to_nat ((t0 - t0) ÷ s) + n0 + Z.to_nat ((M - eA) ÷ s)
   = Z.to_nat ((t1 - t0) ÷ s) + n1 + Z.to_nat ((M - eB) ÷ s))%nat
  ↔ (s | t1 - t0) ∨ eA ≤ eB.
Proof.
  intros Hs Hlt eA eB M.
  rewrite Z.sub_diag, Z.quot_0_l by lia.
  pose proof (Z.div_mod (t1 - t0) s ltac:(lia)) as Hdm.
  pose proof (Z.mod_pos_bound (t1 - t0) s Hs) as Hr.
  set (q := (t1 - t0) / s) in *. set (r := (t1 - t0) mod s) in *.
  assert (0 ≤ q) as Hq by (apply Z.div_pos; lia).
  assert ((s | t1 - t0) ↔ r = 0) as Hdiv.
  { unfold r. symmetry. apply Z.mod_divide. lia. }
  rewrite (Z.quot_div_nonneg (t1 - t0)) by lia. fold q.
  destruct (Z.le_gt_cases eA eB) as [Hle | Hgt].
  - replace M with eB by (unfold M; lia).
    rewrite Z.sub_diag, Z.quot_0_l by lia.
    rewrite Z.quot_div_nonneg by lia.
    assert ((eB - eA) / s = q + Z.of_nat n1 - Z.of_nat n0) as ->.
    { symmetry. apply (Z.div_unique _ _ _ r); [lia|]. unfold eA, eB. lia. }
    assert (0 ≤ q + Z.of_nat n1 - Z.of_nat n0).
    { assert (0 ≤ (q + Z.of_nat n1 - Z.of_nat n0) * s + r) by (unfold eA, eB in Hle; lia).
      nia. }
    split; [by right | intros _; lia].
  - replace M with eA by (unfold M; lia).
    rewrite Z.sub_diag, Z.quot_0_l by lia.
    rewrite Z.quot_div_nonneg by lia.
    destruct (decide (r = 0)) as [Hr0 | Hr0].
    + assert ((eA - eB) / s = Z.of_nat n0 - Z.of_nat n1 - q) as ->.
      { symmetry. apply (Z.div_unique _ _ _ 0); [lia|]. unfold eA, eB. lia. }
      assert (0 ≤ Z.of_nat n0 - Z.of_nat n1 - q) by (unfold eA, eB in Hgt; nia).
      split; [intros _; left; by apply Hdiv | intros _; lia].
    + assert ((eA - eB) / s = Z.of_nat n0 - Z.of_nat n1 - q - 1) as ->.
      { symmetry. apply (Z.div_unique _ _ _ (s - r)); [lia|]. unfold eA, eB. lia. }
      assert (0 ≤ Z.of_nat n0 - Z.of_nat n1 - q - 1) by (unfold eA, eB in Hgt; nia).
      split; [intros; lia | intros [Hd | Hle]; [by apply Hdiv in Hd | lia]].
Qed.

(** C2, as amended.  Two series of the same positive step [s], with
    [n0] samples over [[t0, t0 + n0 * s]] and [n1] samples over
    [[t1, t1 + n1 * s]], where [t0 < t1] and the greater stop is less than
    [2 ^ 63] after [t0], so that no difference of time stamps overflows.
    With extrapolation disabled, whenever [AlignSeries] on the two
    pointers, in either order, returns, it returns the list it was given
    and the heap holds the same series locations as before; the two series
    then have the start [t0] and the greater of the two stops; and their
    value buffers have one length exactly when [t1 - t0] is a multiple of
    [s] or the series that starts later does not end before the other. *)
Theorem AlignSeries_two_series h (pA pB : nat) dA dB (s t0 t1 : Z) (n0 n1 : nat)
    (args args' : list nat) h' :
  h !! pA = Some dA → h !! pB = Some dB →
  StepTime dA = s → StepTime dB = s → 0 < s →
  StartTime dA = t0 → StopTime dA = t0 + Z.of_nat n0 * s → length (Values dA) = n0 →
  StartTime dB = t1 → StopTime dB = t1 + Z.of_nat n1 * s → length (Values dB) = n1 →
  t0 < t1 →
  Z.max (t0 + Z.of_nat n0 * s) (t1 + Z.of_nat n1 * s) - t0 < 2 ^ 63 →
  args = [pA; pB] ∨ args = [pB; pA] →
  AlignSeries false args h = Done (args', h') →
  args' = args ∧ dom h' = dom h ∧
  ∃ dA' dB',
    h' !! pA = Some dA' ∧ h' !! pB = Some dB' ∧
    StartTime dA' = t0 ∧ StartTime dB' = t0 ∧
    StopTime dA' = Z.max (t0 + Z.of_nat n0 * s) (t1 + Z.of_nat n1 * s) ∧
    StopTime dB' = Z.max (t0 + Z.of_nat n0 * s) (t1 + Z.of_nat n1 * s) ∧
    (length (Values dA') = length (Values dB')
     ↔ (s | t1 - t0) ∨ t0 + Z.of_nat n0 * s ≤ t1 + Z.of_nat n1 * s).
Proof.
  intros HA HB HsA HsB Hs HA1 HA2 HA3 HB1 HB2 HB3 Hlt Hspan Hargs Hrun.
  assert (pA ≠ pB) as Hne by (intros ->; rewrite HA in HB; injection HB as ->; lia).
  set (m := t0). set (M := Z.max (t0 + Z.of_nat n0 * s) (t1 + Z.of_nat n1 * s)).
  assert (length (Values (padded m M dA)) = length (Values (padded m M dB))
          ↔ (s | t1 - t0) ∨ t0 + Z.of_nat n0 * s ≤ t1 + Z.of_nat n1 * s) as Hlen.
  { rewrite !padded_length, HA1, HA2, HA3, HB1, HB2, HB3, HsA, HsB.
    apply (padded_pair_lengths s t0 t1 n0 n1); done. }
  assert (dom (<[pA := padded m M dA]> (<[pB := padded m M dB]> h)) = dom h) as Hdom.
  { rewrite !dom_insert_L.
    assert (pA ∈ dom h) by (apply elem_of_dom; eauto).
    assert (pB ∈ dom h) by (apply elem_of_dom; eauto).
    apply set_eq. intros x. rewrite !elem_of_union, !elem_of_singleton.
    split; [intros [->|[->|?]]; done | auto]. }
  assert (0 ≤ Z.of_nat n0 * s ∧ 0 ≤ Z.of_nat n1 * s) as [Hn0 Hn1] by nia.
  destruct Hargs as [-> | ->].
  - rewrite (AlignSeries_pair h pA pB dA dB) in Hrun by (done || lia).
    rewrite HA1, HA2, HB1, HB2 in Hrun.
    replace (Z.min t0 t1) with m in Hrun by (unfold m; lia). fold M in Hrun.
    injection Hrun as <- <-.
    split; [done|]. split.
    { rewrite <- Hdom. f_equal. apply map_eq. intros x.
      rewrite !lookup_insert. repeat case_decide; congruence. }
    exists (padded m M dA), (padded m M dB).
    split; [by rewrite lookup_insert_ne, lookup_insert_eq|].
    split; [by rewrite lookup_insert_eq|]. done.
  - rewrite (AlignSeries_pair h pB pA dB dA) in Hrun by (done || lia).
    rewrite HA1, HA2, HB1, HB2 in Hrun.
    replace (Z.min t1 t0) with m in Hrun by (unfold m; lia).
    replace (Z.max (t1 + Z.of_nat n1 * s) (t0 + Z.of_nat n0 * s)) with M in Hrun
      by (unfold M; lia).
    injection Hrun as <- <-.
    split; [done|]. split; [done|].
    exists (padded m M dA), (padded m M dB).
    split; [by rewrite lookup_insert_eq|].
    split; [by rewrite lookup_insert_ne, lookup_insert_eq|]. done.
Qed.

(** C10, as amended.  [AlignSeries] indexes its first argument before
    any check: on the empty list it panics.  On a non-empty list, with
    extrapolation disabled, no index is out of range; and the call returns,
    with the same list, when every pointer denotes a series whose step is
    positive and whose bounds are non-negative time stamps. *)
Theorem AlignSeries_precondition :
  (∀ (ep : bool) h, AlignSeries ep [] h = Panic IndexOutOfRange) ∧
  (∀ (args : list nat) h, args ≠ [] →
     AlignSeries false args h ≠ Panic IndexOutOfRange) ∧
  (∀ (args : list nat) h, args ≠ [] →
     (∀ p, p ∈ args → ∃ d, h !! p = Some d ∧ regular d) →
     ∃ h', AlignSeries false args h = Done (args, h')).
Proof.
  split; [|split].
  - reflexivity.
  - intros [|p0 args] h Hne; [done|]. unfold AlignSeries. intros H.
    apply bind_Panic in H as [H | (p & _ & H)]; [discriminate|].
    apply bind_Panic in H as [H | (a0 & _ & H)].
    { unfold load in H. destruct (h !! p); discriminate. }
    apply bind_Panic in H as [H | ([l1 h1] & _ & H)].
    { by apply align_pass_no_index_panic in H. }
    apply bind_Panic in H as [H | ([l2 h2] & _ & H)]; [|discriminate].
    by apply align_pass_no_index_panic in H.
  - intros [|p0 args] h Hne Hreg; [done|]. unfold AlignSeries. simpl.
    destruct (Hreg p0) as (a0 & Ha0 & Hr0); [apply elem_of_cons; by left|].
    rewrite (load_Some _ _ _ Ha0). simpl.
    destruct (pad_pass_returns (p0 :: args)
                (mkLocals (StartTime a0) (StopTime a0) 0 (StepTime a0)) h)
      as (l1 & h1 & -> & Hm1 & HM1 & Hreg1); [apply Hr0 | apply Hr0 | done |].
    simpl.
    destruct (pad_pass_returns (p0 :: args) l1 h1) as (l2 & h2 & -> & _); [done..|].
    simpl. eauto.
Qed.

(** The body of the extrapolation loop on a series of at most one sample
    whose step exceeds the least step: a panic, whatever the other fields. *)
Lemma extrapolate_series_single_sample l d :
  (length (Values d) ≤ 1)%nat → minStepTime l < StepTime d →
  ∃ p, extrapolate_series l d = Panic p.
Proof.
  intros Hlen Hstep. unfold extrapolate_series.
  destruct (Z.ltb_spec (StepTime d) (minStepTime l)) as [?|_]; [lia|].
  destruct (Z.gtb_spec (StepTime d) (minStepTime l)) as [_|?]; [|lia].
  destruct (make_float64s _) as [newVals|p]; simpl; [|eauto].
  destruct (index (Values d) 0) as [v|p]; simpl; [|eauto].
  rewrite (index_Panic (Values d) 1) by lia. simpl. eauto.
Qed.

End AlignSeries_claims.

(** C10, as stated, fails: a zero step on a series that starts after
    the least start is a division by zero. *)
Lemma AlignSeries_zero_step_panics :
  AlignSeries false [1%nat; 2%nat] zero_step_heap = Panic IntegerDivideByZero.
Proof. vm_compute. reflexivity. Qed.

Lemma AlignSeries_precondition_witness :
  ∃ h', AlignSeries false [1%nat; 2%nat] late_start_heap = Done ([1%nat; 2%nat], h').
Proof.
  apply (proj2 (proj2 (@AlignSeries_precondition ()))); [discriminate|].
  intros p Hp. apply list_elem_of_In in Hp. simpl in Hp.
  destruct Hp as [<- | [<- | []]]; eexists; (split; [reflexivity|]);
    unfold regular, time_ok; simpl; lia.
Defined.

(** C1.  The second series starts one step after the first:
    [AlignSeries] prepends one sample to it, and that sample is the zero
    of [make], not NaN. *)
Theorem AlignSeries_pads_with_zero :
  AlignSeries false [1%nat; 2%nat] late_start_heap
  = Done ([1%nat; 2%nat],
          <[2%nat := mkMetricData "b" 0 20 10 [f64_zero; f64_of_int 3] ()]> late_start_heap) ∧
  IsNaN f64_zero = false.
Proof. vm_compute. split; reflexivity. Qed.

(** C5.  With extrapolation enabled, a series of a single sample whose
    step exceeds the least step makes [AlignSeries] index the second sample
    of the series: a panic.  With extrapolation disabled the same call
    returns. *)
Theorem AlignSeries_single_sample_panics :
  AlignSeries true [1%nat; 2%nat] coarse_heap = Panic IndexOutOfRange ∧
  AlignSeries false [1%nat; 2%nat] coarse_heap = Done ([1%nat; 2%nat], coarse_heap).
Proof. vm_compute. split; reflexivity. Qed.

(** C2, as stated, fails: two series of step 10 over [[0, 20]] and
    [[5, 15]], with two samples and one sample.  After [AlignSeries] both
    have the bounds [[0, 20]], but the first holds two samples and the
    second one sample: the half step between the starts is truncated. *)
Lemma AlignSeries_off_grid_lengths :
  AlignSeries false [1%nat; 2%nat] off_grid_heap
  = Done ([1%nat; 2%nat],
          <[2%nat := mkMetricData "b" 0 20 10 [f64_of_int 3] ()]> off_grid_heap) ∧
  off_grid_heap !! 1%nat = Some (mkMetricData "a" 0 20 10 [f64_of_int 1; f64_of_int 2] ()) ∧
  length [f64_of_int 1; f64_of_int 2] ≠ length [f64_of_int 3].
Proof. vm_compute. repeat split; discriminate. Qed.

Lemma AlignSeries_two_series_witness :
  [1%nat; 2%nat] = [1%nat; 2%nat] ∧ dom late_start_aligned = dom late_start_heap ∧
  ∃ dA' dB' : MetricData (),
    late_start_aligned !! 1%nat = Some dA' ∧ late_start_aligned !! 2%nat = Some dB' ∧
    StartTime dA' = 0 ∧ StartTime dB' = 0 ∧
    StopTime dA' = Z.max (0 + Z.of_nat 2 * 10) (10 + Z.of_nat 1 * 10) ∧
    StopTime dB' = Z.max (0 + Z.of_nat 2 * 10) (10 + Z.of_nat 1 * 10) ∧
    (length (Values dA') = length (Values dB')
     ↔ (10 | 10 - 0) ∨ 0 + Z.of_nat 2 * 10 ≤ 10 + Z.of_nat 1 * 10).
Proof.
  apply (AlignSeries_two_series late_start_heap 1 2
           (series "a" 0 20 10 [1; 2]) (series "b" 10 20 10 [3]) 10 0 10 2 1
           [1%nat; 2%nat] [1%nat; 2%nat] late_start_aligned);
    first [reflexivity | by left | (vm_compute; reflexivity)].
Defined.

(** Two series of step 10 with negative time stamps whose starts differ
    by half a step, where the series that starts later ends last: both end
    with two samples. *)
Example AlignSeries_off_grid_later_stop :
  AlignSeries false [1%nat; 2%nat]
    (<[2%nat := series "b" (-15) 5 10 [3; 4]]> (<[1%nat := series "a" (-20) 0 10 [1; 2]]> ∅))
  = Done ([1%nat; 2%nat],
          <[2%nat := series "b" (-20) 5 10 [3; 4]]>
            (<[1%nat := series "a" (-20) 5 10 [1; 2]]> ∅)).
Proof. vm_compute. reflexivity. Qed.

(** ** Aggregation *)

Section AggregateSeries_facts.

Context {Rest E : Type} `{!ExprNode E}.

Variable ExtrapolatePoints : bool.
Variable function : list float64 → float64.

Implicit Types (d : MetricData Rest) (h : gmap nat (MetricData Rest)).

Lemma collect_column h (args : list nat) (i : nat) (acc values : list float64) :
  column_at h args i values → collect h args i acc = Done (acc ++ values).
Proof.
  intros Hcol. revert acc.
  induction Hcol as [|p x args values (d & Hp & Hx) _ IH]; intros acc; simpl.
  - by rewrite app_nil_r.
  - rewrite (load_Some _ _ _ Hp). simpl.
    rewrite (proj2 (index_Done _ _ _) Hx). simpl.
    rewrite IH. by rewrite <- app_assoc.
Qed.

Lemma column_at_exists h (args : list nat) (i : nat) :
  (∀ p, p ∈ args → ∃ d, h !! p = Some d ∧ (i < length (Values d))%nat) →
  ∃ values, column_at h args i values.
Proof.
  induction args as [|p args IH]; intros Hall.
  - exists []. constructor.
  - destruct (Hall p) as (d & Hp & Hi); [apply elem_of_cons; by left|].
    destruct (lookup_lt_is_Some_2 _ _ Hi) as [x Hx].
    destruct IH as [values Hvalues].
    { intros q Hq. apply Hall. apply elem_of_cons. by right. }
    exists (x :: values). constructor; eauto.
Qed.

(** The sample written at index [i]. *)
Lemma aggregate_at_store (out : list float64) (i : nat) (values : list float64) :
  (i < length out)%nat →
  aggregate_at function out i values
  = Done (<[i := if decide (0 < length values)%nat then function values else NaN]> out).
Proof.
  intros Hi. unfold aggregate_at, store. rewrite decide_True by done. simpl.
  destruct (decide (0 < length values)%nat).
  - rewrite decide_True by (by rewrite length_insert).
    by rewrite list_insert_insert_eq.
  - done.
Qed.

Lemma aggregate_loop_seq h (args : list nat) (n a : nat) (out : list float64) :
  args ≠ [] → (a + n ≤ length out)%nat →
  (∀ i, (a ≤ i < a + n)%nat → ∃ values, column_at h args i values) →
  ∃ out', aggregate_loop function h args (seq a n) out = Done out' ∧
    length out' = length out ∧
    (∀ i, (i < a)%nat → out' !! i = out !! i) ∧
    (∀ i, (a ≤ i < a + n)%nat →
       ∃ values, column_at h args i values ∧ out' !! i = Some (function values)).
Proof.
  intros Hne. revert a out. induction n as [|n IH]; intros a out Hlen Hcols; simpl.
  - exists out. do 3 (split; [done|]). intros i Hi. lia.
  - destruct (Hcols a) as [values Hvalues]; [lia|].
    rewrite (collect_column _ _ _ [] _ Hvalues). simpl.
    rewrite aggregate_at_store by lia. simpl.
    assert (0 < length values)%nat as Hpos.
    { rewrite <- (Forall2_length _ _ _ Hvalues). destruct args; [done | simpl; lia]. }
    rewrite decide_True by done.
    destruct (IH (S a) (<[a := function values]> out)) as (out' & -> & Hl & Hlow & Hhigh).
    { rewrite length_insert. lia. }
    { intros i Hi. apply Hcols. lia. }
    exists out'. split; [done|]. split; [by rewrite Hl, length_insert|]. split.
    + intros i Hi. rewrite Hlow by lia. apply list_lookup_insert_ne. lia.
    + intros i Hi. destruct (decide (i = a)) as [->|Hia].
      * exists values. split; [done|]. rewrite Hlow by lia.
        apply list_lookup_insert_eq. lia.
      * apply Hhigh. lia.
Qed.

(** C4, as amended.  On a non-empty list for which [AlignSeries] returns
    and every aligned series holds at least as many samples as the first
    one, [AggregateSeries] returns one series and no error.  The series is
    new; its name is the target of the node applied to the raw argument
    text; its bounds, step and other fields are those of the first aligned
    series; it has as many samples as that series; and its sample of index
    [i] is the aggregate function applied to the samples of index [i] of
    all the series, in order.  On an empty collected slice the sample
    written is NaN. *)
Theorem AggregateSeries_shape (e : E) (p0 : nat) (args : list nat) h h1 a0 :
  AlignSeries ExtrapolatePoints (p0 :: args) h = Done (p0 :: args, h1) →
  h1 !! p0 = Some a0 →
  (∀ p, p ∈ p0 :: args →
     ∃ d, h1 !! p = Some d ∧ (length (Values a0) ≤ length (Values d))%nat) →
  (∃ pr r,
     AggregateSeries ExtrapolatePoints function e (p0 :: args) h
     = Done (([pr], None), <[pr := r]> h1) ∧
     (pr ∉ dom h1) ∧
     Name r = call_name (Target e) (RawArgs e) ∧
     StartTime r = StartTime a0 ∧ StopTime r = StopTime a0 ∧
     StepTime r = StepTime a0 ∧ Other r = Other a0 ∧
     length (Values r) = length (Values a0) ∧
     (∀ i, (i < length (Values a0))%nat →
        ∃ values, column_at h1 (p0 :: args) i values ∧
                  Values r !! i = Some (function values))) ∧
  (∀ (out : list float64) (i : nat), (i < length out)%nat →
     ∃ out', aggregate_at function out i [] = Done out' ∧ out' !! i = Some NaN).
Proof.
  intros Halign Ha0 Hlen. split.
  - unfold AggregateSeries. rewrite Halign. cbn [mbind outcome_bind index lookup list_lookup].
    rewrite (load_Some _ _ _ Ha0). cbn [mbind outcome_bind].
    destruct (aggregate_loop_seq h1 (p0 :: args) (length (Values a0)) 0
                (replicate (length (Values a0)) f64_zero))
      as (out' & -> & Hl & _ & Hsamples); [done | by rewrite length_replicate | |].
    { intros i Hi. apply column_at_exists. intros p Hp.
      destruct (Hlen p Hp) as (d & Hd & Hle). exists d. split; [done | lia]. }
    cbn [mbind outcome_bind alloc mret outcome_ret].
    eexists _, _. split; [reflexivity|]. split; [apply is_fresh|].
    simpl. rewrite Hl, length_replicate. repeat split; try done.
    intros i Hi. apply Hsamples. lia.
  - intros out i Hi. rewrite aggregate_at_store by done. simpl.
    eexists. split; [done|]. by apply list_lookup_insert_eq.
Qed.

End AggregateSeries_facts.

(** C4, as stated, fails: two series over the same interval with two
    samples and one sample.  [AlignSeries] leaves them as they are, and
    [AggregateSeries] indexes the second sample of the shorter one. *)
Lemma AggregateSeries_shorter_series_panics :
  [1%nat; 2%nat] ≠ [] ∧
  AlignSeries false [1%nat; 2%nat] coarse_heap = Done ([1%nat; 2%nat], coarse_heap) ∧
  AggregateSeries false sum_values sum_call [1%nat; 2%nat] coarse_heap
  = Panic IndexOutOfRange.
Proof. vm_compute. repeat split; discriminate. Qed.

Lemma AggregateSeries_shape_witness :
  ∃ pr r,
    AggregateSeries false sum_values sum_call [1%nat; 2%nat] late_start_heap
    = Done (([pr], None), <[pr := r]> late_start_aligned) ∧
    Name r = "sumSeries(a,b)"%string ∧ length (Values r) = 2%nat.
Proof.
  destruct (AggregateSeries_shape false sum_values sum_call 1%nat [2%nat]
              late_start_heap late_start_aligned (series "a" 0 20 10 [1; 2]))
    as [(pr & r & Hrun & _ & Hname & _ & _ & _ & _ & Hlen & _) _].
  - vm_compute. reflexivity.
  - reflexivity.
  - intros p Hp. apply list_elem_of_In in Hp. simpl in Hp.
    destruct Hp as [<- | [<- | []]]; eexists; (split; [reflexivity|]); simpl; lia.
  - exists pr, r. split; [exact Hrun|]. split; [exact Hname | exact Hlen].
Defined.

(** The sum of the two series of [late_start_heap]: the prepended sample
    of the second series enters the sum as a zero. *)
Example AggregateSeries_sum :
  AggregateSeries false sum_values sum_call [1%nat; 2%nat] late_start_heap
  = Done (([3%nat], None),
          <[3%nat := mkMetricData "sumSeries(a,b)" 0 20 10 [f64_of_int 1; f64_of_int 5] ()]>
            late_start_aligned).
Proof. vm_compute. reflexivity. Qed.

(** ** Transformation of each series *)

Section ForEachSeriesDo_facts.

Context {Rest V W E : Type} `{!ExprNode E}.

Variable evaluator :
  option (E → Z → Z → V → State Rest W → outcome (result * State Rest W)).
Variable transform : nat → nat → State Rest W → outcome (nat * State Rest W).
Variables (from until : Z) (values : V).

Implicit Types (d t : MetricData Rest) (st : State Rest W).

Local Abbreviation transformed := (transformed transform).

Lemma transformed_length target arg st outs st' :
  transformed target arg st outs st' → length outs = length arg.
Proof. induction 1; simpl; congruence. Qed.

Lemma is_template_unique target d t t' :
  is_template target d t → is_template target d t' → t = t'.
Proof.
  intros (? & ? & ? & ? & ? & ?) (? & ? & ? & ? & ? & ?).
  destruct t, t'; simpl in *. congruence.
Qed.

Lemma ForEachSeriesDo_from_transformed target arg st outs st' :
  transformed target arg st outs st' → ∀ results,
  ForEachSeriesDo_from transform target arg results st = Done (results ++ outs, st').
Proof.
  induction 1 as [st | a arg st d pr t out st1 outs st2 Ha -> _ Ht Hcall _ IH];
    intros results; simpl.
  - by rewrite app_nil_r.
  - rewrite (load_Some _ _ _ Ha). simpl.
    match goal with
    | |- context [mkMetricData ?n ?a1 ?a2 ?a3 ?vs ?o] =>
        replace (mkMetricData n a1 a2 a3 vs o) with t
          by (apply (is_template_unique target d); [done | by repeat split])
    end.
    rewrite Hcall. simpl. rewrite IH. by rewrite <- app_assoc.
Qed.

Lemma transformed_ForEachSeriesDo_from target arg st results res st' :
  ForEachSeriesDo_from transform target arg results st = Done (res, st') →
  ∃ outs, res = results ++ outs ∧ transformed target arg st outs st'.
Proof.
  revert st results. induction arg as [|a arg IH]; intros st results; simpl.
  - intros [= <- <-]. exists []. split; [by rewrite app_nil_r | constructor].
  - intros H. apply bind_Done in H as (d & Hd & H). apply load_Done in Hd.
    apply bind_Done in H as ([out st1] & Hcall & H).
    apply IH in H as (outs & -> & Htr).
    exists (out :: outs). split; [by rewrite <- app_assoc|].
    econstructor; [done | reflexivity | apply is_fresh | | exact Hcall | done].
    by repeat split.
Qed.

(** C7.  When the first argument of the node resolves without error to
    the series [arg], [ForEachSeriesDo] returns [outs] without error exactly
    when the transform, called on the series of [arg] in order, returns the
    pointers [outs] in that order.  Each call receives its input and a
    template at a new location, which holds the fields of the input, the
    name made of the target of the node and the name of the input, and as
    many zero samples as the input has samples. *)
Theorem ForEachSeriesDo_in_order (e arg0 : E) st (arg : list nat) st1 :
  Args e !! 0%nat = Some arg0 →
  GetSeriesArg evaluator arg0 from until values st = Done ((arg, None), st1) →
  ∀ outs st',
    ForEachSeriesDo evaluator transform e from until values st = Done ((outs, None), st')
    ↔ transformed (Target e) arg st1 outs st'.
Proof.
  intros Harg0 Hres outs st'. unfold ForEachSeriesDo, index. rewrite Harg0.
  cbn [mbind outcome_bind]. rewrite Hres. cbn [mbind outcome_bind]. split.
  - intros H. apply bind_Done in H as ([res st2] & Hrun & [= -> ->]).
    apply transformed_ForEachSeriesDo_from in Hrun as (outs' & -> & Htr). done.
  - intros Htr. by rewrite (ForEachSeriesDo_from_transformed _ _ _ _ _ Htr []).
Qed.

End ForEachSeriesDo_facts.

Lemma ForEachSeriesDo_in_order_witness :
  transformed copy_transform "keep" [2%nat; 3%nat] (demo_state 1) [4%nat; 5%nat]
    (mkState (<[5%nat := series "keep(b.y)" 0 180 60 [7; 8; 9]]>
                (<[4%nat := series "keep(b.x)" 0 180 60 [4; 5; 6]]> demo_heap)) 1%nat).
Proof.
  refine (proj1 (ForEachSeriesDo_in_order (Some demo_Eval) copy_transform 0 180 ()
                   keep_call (NameNode "b") (demo_state 0) [2%nat; 3%nat] (demo_state 1)
                   _ _ _ _) _);
    vm_compute; reflexivity.
Defined.

(** * Further properties *)

(** ** Membership *)

(** X1.  [Contains] decides membership: it returns true exactly when the
    value occurs in the slice. *)
Theorem Contains_elem_of (a : list Z) (i : Z) :
  Contains a i = true ↔ i ∈ a.
Proof.
  induction a as [|aa a IH]; simpl.
  - split; [discriminate | intros H; by apply elem_of_nil in H].
  - rewrite elem_of_cons. destruct (Z.eqb_spec aa i) as [->|Hne].
    + split; [by left | done].
    + rewrite IH. split; [by right | intros [->|H]; done].
Qed.

(** ** Names of the resolved series *)

Lemma append_cons (c : ascii) (s t : string) : String c s +:+ t = String c (s +:+ t).
Proof. reflexivity. Qed.

Lemma append_nil_r (s : string) : s +:+ EmptyString = s.
Proof. induction s as [|c s IH]; [done|]. by rewrite append_cons, IH. Qed.

Lemma append_assoc (s t u : string) : (s +:+ t) +:+ u = s +:+ t +:+ u.
Proof. induction s as [|c s IH]; [done|]. by rewrite !append_cons, IH. Qed.

Lemma append_length (s t : string) :
  String.length (s +:+ t) = (String.length s + String.length t)%nat.
Proof. induction s as [|c s IH]; [done|]. rewrite append_cons. simpl. by rewrite IH. Qed.

(** The builder of [Join] after the elements [elems]. *)
Lemma Join_foldl (sep b : string) (elems : list string) :
  foldl (λ b s, b +:+ sep +:+ s) b elems
  = b +:+ foldr (λ s r, sep +:+ s +:+ r) EmptyString elems.
Proof.
  revert b. induction elems as [|x elems IH]; intros b; simpl.
  - by rewrite append_nil_r.
  - rewrite IH. by rewrite !append_assoc.
Qed.

Lemma concat_cons (sep x : string) (elems : list string) :
  String.concat sep (x :: elems) = x +:+ foldr (λ s r, sep +:+ s +:+ r) EmptyString elems.
Proof.
  revert x. induction elems as [|y elems IH]; intros x.
  - simpl. by rewrite append_nil_r.
  - change (String.concat sep (x :: y :: elems))
      with (x +:+ sep +:+ String.concat sep (y :: elems)).
    rewrite IH. reflexivity.
Qed.

Lemma Join_concat (sep : string) (elems : list string) :
  Join elems sep = String.concat sep elems.
Proof.
  destruct elems as [|elem [|x elems]]; [done..|].
  rewrite concat_cons. unfold Join. apply Join_foldl.
Qed.

Section Names_facts.

Context {Rest V W E : Type} `{!ExprNode E} `{!ExprRawArgs E}.

Variable evaluator :
  option (E → Z → Z → V → State Rest W → outcome (result * State Rest W)).
Variables (from until : Z) (values : V).

Implicit Types (d : MetricData Rest) (h : gmap nat (MetricData Rest)) (st : State Rest W).

Lemma argNames_from_names h (args : list nat) (names acc : list string) :
  names_of h args names → argNames_from h args acc = Done (acc ++ names).
Proof.
  intros Hn. revert acc.
  induction Hn as [|p n args names (d & Hp & <-) _ IH]; intros acc; simpl.
  - by rewrite app_nil_r.
  - rewrite (load_Some _ _ _ Hp). simpl. rewrite IH. by rewrite <- app_assoc.
Qed.

Lemma argNames_from_nil h (args : list nat) (acc : list string) (p : nat) :
  p ∈ args → h !! p = None → argNames_from h args acc = Panic NilDereference.
Proof.
  revert acc. induction args as [|q args IH]; intros acc Hin Hp.
  - by apply elem_of_nil in Hin.
  - simpl. unfold load. destruct (h !! q) as [d|] eqn:Hq; simpl; [|done].
    apply IH; [|done]. apply elem_of_cons in Hin as [->|Hin]; [congruence | done].
Qed.

(** X2.  [RemoveEmptySeriesFromName] returns the names of all the series
    it is given, in order, separated by single commas: no name is removed,
    not even an empty one.  A nil pointer among the series is a panic. *)
Theorem RemoveEmptySeriesFromName_joins h (args : list nat) :
  (∀ names, names_of h args names →
     RemoveEmptySeriesFromName h args = Done (String.concat "," names)) ∧
  (∀ p, p ∈ args → h !! p = None →
     RemoveEmptySeriesFromName h args = Panic NilDereference).
Proof.
  split.
  - intros names Hn. unfold RemoveEmptySeriesFromName.
    rewrite (argNames_from_names _ _ _ [] Hn). simpl. by rewrite Join_concat.
  - intros p Hin Hp. unfold RemoveEmptySeriesFromName.
    by rewrite (argNames_from_nil _ _ [] _ Hin Hp).
Qed.

(** X3.  [GetSeriesArgsAndRemoveNonExisting] returns what [GetSeriesArgs]
    returns on the arguments of the node.  On an error the node is left as
    it is.  On success the raw argument text of the node becomes the
    comma-separated names of the resolved series exactly when fewer series
    than argument nodes were resolved; with at least as many series as
    argument nodes the node is left as it is, whether or not an argument
    was missing. *)
Theorem GetSeriesArgsAndRemoveNonExisting_rewrites (e : E) st (args : list nat) err st' :
  GetSeriesArgs evaluator (Args e) from until values st = Done ((args, err), st') →
  (∀ err', err = Some err' →
     GetSeriesArgsAndRemoveNonExisting evaluator e from until values st
     = Done (([], Some err'), e, st')) ∧
  (err = None → (length (Args e) ≤ length args)%nat →
     GetSeriesArgsAndRemoveNonExisting evaluator e from until values st
     = Done ((args, None), e, st')) ∧
  (err = None → (length args < length (Args e))%nat →
     ∀ names, names_of (heap st') args names →
     GetSeriesArgsAndRemoveNonExisting evaluator e from until values st
     = Done ((args, None), SetRawArgs e (String.concat "," names), st')).
Proof.
  intros Hrun. unfold GetSeriesArgsAndRemoveNonExisting. rewrite Hrun.
  cbn [mbind outcome_bind]. split; [|split].
  - by intros err' ->.
  - intros -> Hle. by rewrite decide_False by lia.
  - intros -> Hlt names Hn. rewrite decide_True by done.
    unfold RemoveEmptySeriesFromName.
    rewrite (argNames_from_names _ _ _ [] Hn). simpl. by rewrite Join_concat.
Qed.

End Names_facts.

(** ** Resolution of arguments, continued *)

Section Resolver_more.

Context {Rest V W E : Type} `{!ExprNode E}.

Variable evaluator :
  option (E → Z → Z → V → State Rest W → outcome (result * State Rest W)).
Variables (from until : Z) (values : V).

Implicit Types (st : State Rest W) (e : list E).

Local Abbreviation GetSeriesArg := (GetSeriesArg evaluator).
Local Abbreviation GetSeriesArgs_from := (GetSeriesArgs_from evaluator).
Local Abbreviation GetSeriesArgs := (GetSeriesArgs evaluator).
Local Abbreviation resolved := (resolved evaluator from until values).

(** What a run of the loop of [GetSeriesArgs] that returns has done:
    either every node was resolved or skipped, or the nodes before some
    node were and that node failed with another error. *)
Lemma GetSeriesArgs_from_cases e (args : list nat) st a err st' :
  GetSeriesArgs_from e from until values args st = Done ((a, err), st') →
  (∃ ls, resolved e st ls st' ∧
     ((err = None ∧ a = args ++ concat ls ∧ a ≠ []) ∨
      (err = Some ErrSeriesDoesNotExist ∧ a = [] ∧ args ++ concat ls = []))) ∨
  (∃ e1 arg e2 ls st1 a' err',
     e = e1 ++ arg :: e2 ∧ resolved e1 st ls st1 ∧
     GetSeriesArg arg from until values st1 = Done ((a', Some err'), st') ∧
     err' ≠ ErrSeriesDoesNotExist ∧ err = Some err' ∧ a = []).
Proof.
  revert args st. induction e as [|arg e IH]; intros args st; simpl.
  - case_decide as Hlen.
    + intros [= <- <- <-]. left. exists []. split; [constructor|]. right.
      apply length_zero_iff_nil in Hlen. subst. done.
    + intros [= <- <- <-]. left. exists []. split; [constructor|]. left.
      rewrite app_nil_r. split; [done|]. split; [done|].
      intros ->. by apply Hlen.
  - intros H. apply bind_Done in H as ([[a1 err1] st1] & Harg & H).
    assert (err1 = None ∨ err1 = Some ErrSeriesDoesNotExist →
            GetSeriesArgs_from e from until values (args ++ a1) st1 = Done ((a, err), st') →
            (∃ ls, resolved (arg :: e) st ls st' ∧
               ((err = None ∧ a = args ++ concat ls ∧ a ≠ []) ∨
                (err = Some ErrSeriesDoesNotExist ∧ a = [] ∧ args ++ concat ls = []))) ∨
            (∃ e1 arg' e2 ls st2 a' err',
               arg :: e = e1 ++ arg' :: e2 ∧ resolved e1 st ls st2 ∧
               GetSeriesArg arg' from until values st2 = Done ((a', Some err'), st') ∧
               err' ≠ ErrSeriesDoesNotExist ∧ err = Some err' ∧ a = [])) as Hcont.
    { intros Htol Hrest. apply IH in Hrest as [(ls & Hres & Hcase) | Hrest].
      - left. exists (a1 :: ls). split; [by econstructor|].
        simpl. by rewrite app_assoc.
      - destruct Hrest as (e1 & arg' & e2 & ls & st2 & a' & err' & -> & Hres & Hrest).
        right. exists (arg :: e1), arg', e2, (a1 :: ls), st2, a', err'.
        split; [done|]. split; [by econstructor | done]. }
    destruct err1 as [err1|]; [|by apply Hcont; [left|]].
    case_decide as Hne.
    + injection H as <- <- <-. right.
      exists [], arg, e, [], st, a1, err1. repeat split; try done. constructor.
    + subst err1. apply Hcont; [by right | done].
Qed.

(** X4.  [GetSeriesArgs] never returns an empty list of series without an
    error, and never returns series together with an error. *)
Theorem GetSeriesArgs_result e st a err st' :
  GetSeriesArgs e from until values st = Done ((a, err), st') →
  (err = None → a ≠ []) ∧ (err ≠ None → a = []).
Proof.
  unfold GetSeriesArgs. intros H.
  apply GetSeriesArgs_from_cases in H
    as [(ls & _ & [(-> & _ & Hne) | (-> & -> & _)]) | H].
  - done.
  - done.
  - destruct H as (? & ? & ? & ? & ? & ? & ? & _ & _ & _ & _ & -> & ->). done.
Qed.

(** X5.  Resolving the nodes [e1 ++ e2] is resolving [e1] and then [e2]
    from the state that [e1] leaves: when [e1] fails with another error
    than [ErrSeriesDoesNotExist], so does the whole and [e2] is not
    evaluated; when [e1] resolves to no series at all, the result is that of
    [e2]; when [e1] resolves to the series [a1], the result is [a1] followed
    by the series of [e2], and an [e2] without series is no error. *)
Theorem GetSeriesArgs_app e1 e2 st a1 err1 st1 :
  GetSeriesArgs e1 from until values st = Done ((a1, err1), st1) →
  (err1 ≠ None → err1 ≠ Some ErrSeriesDoesNotExist →
     GetSeriesArgs (e1 ++ e2) from until values st = Done ((a1, err1), st1)) ∧
  (err1 = Some ErrSeriesDoesNotExist →
     GetSeriesArgs (e1 ++ e2) from until values st
     = GetSeriesArgs e2 from until values st1) ∧
  (err1 = None →
     ∀ a2 err2 st2,
       GetSeriesArgs e2 from until values st1 = Done ((a2, err2), st2) →
       (err2 = None ∨ err2 = Some ErrSeriesDoesNotExist →
          GetSeriesArgs (e1 ++ e2) from until values st = Done ((a1 ++ a2, None), st2)) ∧
       (err2 ≠ None → err2 ≠ Some ErrSeriesDoesNotExist →
          GetSeriesArgs (e1 ++ e2) from until values st = Done (([], err2), st2))).
Proof.
  unfold GetSeriesArgs. intros H1.
  apply GetSeriesArgs_from_cases in H1 as [(ls & Hres & Hcase) | H1].
  - pose proof (GetSeriesArgs_from_resolved _ _ _ _ _ _ _ _ Hres e2 []) as Happ.
    simpl in Happ, Hcase. rewrite Happ.
    destruct Hcase as [(-> & -> & Hne) | (-> & -> & ->)].
    + split; [done|]. split; [done|]. intros _ a2 err2 st2 H2.
      pose proof H2 as H2'.
      apply GetSeriesArgs_from_cases in H2 as [(ls2 & Hres2 & Hcase2) | H2].
      * pose proof (GetSeriesArgs_from_resolved _ _ _ _ _ _ _ _ Hres2 [] (concat ls)) as Happ2.
        rewrite app_nil_r in Happ2. rewrite Happ2. simpl.
        split; [|by destruct Hcase2 as [(-> & _) | (-> & _)]]. intros _.
        simpl in Hcase2.
        assert (concat ls2 = a2) as <-.
        { destruct Hcase2 as [(_ & -> & _) | (_ & -> & ->)]; done. }
        case_decide as Hlen; [|done].
        apply length_zero_iff_nil, app_eq_nil in Hlen as [Hnil _]. done.
      * destruct H2 as (e3 & arg & e4 & ls2 & st3 & a' & err' & -> & Hres2 & Harg & Hne' & -> & ->).
        split; [by intros [?|[= ?]]|]. intros _ _.
        rewrite (GetSeriesArgs_from_resolved _ _ _ _ _ _ _ _ Hres2). simpl.
        rewrite Harg. simpl. by rewrite decide_True.
    + split; [done|]. split; [done|]. done.
  - destruct H1 as (e3 & arg & e4 & ls & st3 & a' & err' & -> & Hres & Harg & Hne & -> & ->).
    split; [|split; [by intros [= ->]|done]].
    intros _ _. rewrite <- app_assoc.
    rewrite (GetSeriesArgs_from_resolved _ _ _ _ _ _ _ _ Hres). simpl.
    rewrite Harg. simpl. by rewrite decide_True.
Qed.

(** X6.  Until [SetEvaluator] is called, [GetSeriesArgs] panics on a list
    that begins with a name or a function call, while a list that begins
    with a literal still fails with [ErrMissingTimeseries]. *)
Theorem GetSeriesArgs_without_evaluator (arg : E) e st :
  evaluator = None →
  GetSeriesArgs (arg :: e) from until values st
  = if negb (IsName arg) && negb (IsFunc arg)
    then Done (([], Some ErrMissingTimeseries), st)
    else Panic NilDereference.
Proof.
  intros Hev. unfold GetSeriesArgs. simpl. unfold GetSeriesArg.
  rewrite Hev. by destruct (negb (IsName arg) && negb (IsFunc arg)).
Qed.

End Resolver_more.

(** ** Transformation of each series, continued *)

Section ForEachSeriesDo_more.

Context {Rest V W E : Type} `{!ExprNode E}.

Variable evaluator :
  option (E → Z → Z → V → State Rest W → outcome (result * State Rest W)).
Variable transform : nat → nat → State Rest W → outcome (nat * State Rest W).
Variables (from until : Z) (values : V).

Implicit Types (d t : MetricData Rest) (st : State Rest W).

Local Abbreviation transformed := (transformed transform).

Lemma transformed_keeps target (arg : list nat) st outs st' :
  keeps_series transform → transformed target arg st outs st' →
  ∀ p d, heap st !! p = Some d → heap st' !! p = Some d.
Proof.
  intros Hkeeps. induction 1 as [st | a arg st d pr t out st1 outs st2 _ _ Hfresh _ Hcall _ IH];
    intros p dp Hp; [done|].
  apply IH. apply (Hkeeps _ _ _ _ _ Hcall).
  - intros ->. apply Hfresh. apply elem_of_dom. eauto.
  - simpl. rewrite lookup_insert_ne; [done|].
    intros ->. apply Hfresh. apply elem_of_dom. eauto.
Qed.

(** X7.  [ForEachSeriesDo] panics on a node without arguments, and
    reports every error of the resolution of the first argument, also
    [ErrSeriesDoesNotExist], as [ErrMissingTimeseries], without calling the
    transform. *)
Theorem ForEachSeriesDo_errors (e : E) st :
  (Args e = [] →
   ForEachSeriesDo evaluator transform e from until values st = Panic IndexOutOfRange) ∧
  (∀ arg0 a err st1,
     Args e !! 0%nat = Some arg0 →
     GetSeriesArg evaluator arg0 from until values st = Done ((a, Some err), st1) →
     ForEachSeriesDo evaluator transform e from until values st
     = Done (([], Some ErrMissingTimeseries), st1)).
Proof.
  split.
  - intros Hargs. unfold ForEachSeriesDo. by rewrite Hargs.
  - intros arg0 a err st1 Harg0 Hres. unfold ForEachSeriesDo, index. rewrite Harg0.
    cbn [mbind outcome_bind]. by rewrite Hres.
Qed.

(** X8.  With a transform that keeps every series other than its
    template, [ForEachSeriesDo] returns as many series as the first argument
    resolves to and changes no series that exists when the resolution
    ends: the inputs are left as they are. *)
Theorem ForEachSeriesDo_keeps_inputs (e arg0 : E) st (arg : list nat) st1 outs err st' :
  keeps_series transform →
  Args e !! 0%nat = Some arg0 →
  GetSeriesArg evaluator arg0 from until values st = Done ((arg, None), st1) →
  ForEachSeriesDo evaluator transform e from until values st = Done ((outs, err), st') →
  err = None ∧ length outs = length arg ∧
  ∀ p d, heap st1 !! p = Some d → heap st' !! p = Some d.
Proof.
  intros Hkeeps Harg0 Hres. unfold ForEachSeriesDo, index. rewrite Harg0.
  cbn [mbind outcome_bind]. rewrite Hres. cbn [mbind outcome_bind].
  intros H. apply bind_Done in H as ([res st2] & Hrun & [= <- <- <-]).
  apply transformed_ForEachSeriesDo_from in Hrun as (outs' & -> & Htr).
  split; [done|]. split; [by apply transformed_length in Htr|].
  by apply (transformed_keeps _ _ _ _ _ Hkeeps Htr).
Qed.

End ForEachSeriesDo_more.

(** ** Alignment, continued *)

Section Align_more.

Context {Rest : Type}.

Implicit Types (d : MetricData Rest) (h : gmap nat (MetricData Rest)) (l : locals).

Lemma pad_locals_time_ok l d :
  regular d → time_ok (minStart l) → time_ok (maxStop l) →
  time_ok (minStart (pad_locals l d)) ∧ time_ok (maxStop (pad_locals l d)).
Proof. intros (_ & ? & ?) ? ?. unfold time_ok in *. simpl. lia. Qed.

Lemma pass_ready_step (p : nat) (rest : list nat) l h d :
  pass_ready (p :: rest) l h → h !! p = Some d →
  pass_ready rest (pad_locals l d)
    (<[p := padded (minStart (pad_locals l d)) (maxStop (pad_locals l d)) d]> h).
Proof.
  intros (Hm & HM & Hreg) Hp.
  destruct (Hreg p) as (d0 & Hd0 & Hrd); [apply elem_of_cons; by left|].
  assert (d0 = d) as -> by congruence.
  destruct (pad_locals_time_ok l d) as [Hm1 HM1]; [done..|].
  split; [done|]. split; [done|]. intros q Hq.
  destruct (decide (q = p)) as [->|Hne].
  - rewrite lookup_insert_eq. eexists. split; [done|]. by apply padded_regular.
  - rewrite lookup_insert_ne by done. apply Hreg. apply elem_of_cons. by right.
Qed.

(** Induction on a pass of the padding loop over regular series. *)
Lemma pad_pass_ind
    (P : list nat → locals → gmap nat (MetricData Rest) → locals →
         gmap nat (MetricData Rest) → Prop) :
  (∀ l h, P [] l h l h) →
  (∀ p rest l h d l' h',
     h !! p = Some d → regular d → time_ok (minStart l) → time_ok (maxStop l) →
     pass_ready rest (pad_locals l d)
       (<[p := padded (minStart (pad_locals l d)) (maxStop (pad_locals l d)) d]> h) →
     P rest (pad_locals l d)
       (<[p := padded (minStart (pad_locals l d)) (maxStop (pad_locals l d)) d]> h) l' h' →
     P (p :: rest) l h l' h') →
  ∀ rest l h, pass_ready rest l h →
  ∃ l' h', for_args pad_series rest l h = Done (l', h') ∧ P rest l h l' h'.
Proof.
  intros Hnil Hcons rest. induction rest as [|p rest IH]; intros l h Hready.
  - exists l, h. split; [done | apply Hnil].
  - pose proof Hready as (Hm & HM & Hreg).
    destruct (Hreg p) as (d & Hd & Hrd); [apply elem_of_cons; by left|].
    pose proof (pass_ready_step _ _ _ _ _ Hready Hd) as Hready1.
    destruct (IH _ _ Hready1) as (l' & h' & Hrun & HP).
    exists l', h'. split; [|by eapply Hcons].
    simpl. rewrite (load_Some _ _ _ Hd). simpl.
    rewrite pad_series_padded by done. simpl. exact Hrun.
Qed.

Lemma extends_refl d : extends d d.
Proof.
  repeat split; try done; try lia. exists 0%nat, 0%nat. simpl. by rewrite app_nil_r.
Qed.

Lemma extends_trans d1 d2 d3 : extends d1 d2 → extends d2 d3 → extends d1 d3.
Proof.
  intros (Hn & Hs & Ho & Hst & Hsp & a & b & Hv) (Hn' & Hs' & Ho' & Hst' & Hsp' & a' & b' & Hv').
  repeat split; try congruence; try lia.
  exists (a' + a)%nat, (b + b')%nat. rewrite Hv', Hv.
  rewrite !replicate_add, <- !app_assoc. done.
Qed.

Lemma padded_extends (m M : Z) d :
  m ≤ StartTime d → StopTime d ≤ M → extends d (padded m M d).
Proof. intros ? ?. repeat split; try done. unfold padded. simpl. eauto. Qed.

(** The bounds after a pass cover every series of the pass, and every
    series that the bounds before the pass covered. *)
Lemma pad_pass_covers (rest : list nat) l h :
  pass_ready rest l h →
  ∃ l' h', for_args pad_series rest l h = Done (l', h') ∧
    minStart l' ≤ minStart l ∧ maxStop l ≤ maxStop l' ∧
    ∀ q d, h !! q = Some d →
      q ∈ rest ∨ (minStart l ≤ StartTime d ∧ StopTime d ≤ maxStop l) →
      ∃ d', h' !! q = Some d' ∧ minStart l' ≤ StartTime d' ∧ StopTime d' ≤ maxStop l'.
Proof.
  revert rest l h. apply (pad_pass_ind (λ rest l h l' h',
    minStart l' ≤ minStart l ∧ maxStop l ≤ maxStop l' ∧
    ∀ q d, h !! q = Some d →
      q ∈ rest ∨ (minStart l ≤ StartTime d ∧ StopTime d ≤ maxStop l) →
      ∃ d', h' !! q = Some d' ∧ minStart l' ≤ StartTime d' ∧ StopTime d' ≤ maxStop l')).
  - intros l h. split; [lia|]. split; [lia|]. intros q d Hq [Hin | Hcov].
    + by apply elem_of_nil in Hin.
    + eauto.
  - intros p rest l h d l' h' Hp Hrd Hm HM _ (Hlo & Hhi & IH). simpl in Hlo, Hhi.
    split; [lia|]. split; [lia|]. intros q dq Hq Hcase.
    destruct (decide (q = p)) as [->|Hne].
    + apply (IH p (padded (minStart (pad_locals l d)) (maxStop (pad_locals l d)) d)).
      * apply lookup_insert_eq.
      * right. simpl. lia.
    + apply (IH q dq).
      * by rewrite lookup_insert_ne.
      * destruct Hcase as [Hin | Hcov].
        -- apply elem_of_cons in Hin as [->|Hin]; [done | by left].
        -- right. simpl. lia.
Qed.

(** A pass from bounds that cover its series keeps the bounds and gives
    them to every series of the pass. *)
Lemma pad_pass_exact (rest : list nat) l h :
  pass_ready rest l h →
  (∀ q d, q ∈ rest → h !! q = Some d →
     minStart l ≤ StartTime d ∧ StopTime d ≤ maxStop l) →
  ∃ l' h', for_args pad_series rest l h = Done (l', h') ∧
    minStart l' = minStart l ∧ maxStop l' = maxStop l ∧
    ∀ q d, h !! q = Some d →
      q ∈ rest ∨ (StartTime d = minStart l ∧ StopTime d = maxStop l) →
      ∃ d', h' !! q = Some d' ∧ StartTime d' = minStart l ∧ StopTime d' = maxStop l.
Proof.
  intros Hready Hcov.
  destruct (pad_pass_ind (λ rest l h l' h',
    (∀ q d, q ∈ rest → h !! q = Some d →
       minStart l ≤ StartTime d ∧ StopTime d ≤ maxStop l) →
    minStart l' = minStart l ∧ maxStop l' = maxStop l ∧
    ∀ q d, h !! q = Some d →
      q ∈ rest ∨ (StartTime d = minStart l ∧ StopTime d = maxStop l) →
      ∃ d', h' !! q = Some d' ∧ StartTime d' = minStart l ∧ StopTime d' = maxStop l))
    with (rest := rest) (l := l) (h := h) as (l' & h' & Hrun & HP); [| |done|by eauto].
  - intros l0 h0 _. split; [done|]. split; [done|]. intros q d Hq [Hin | Heq].
    + by apply elem_of_nil in Hin.
    + eauto.
  - intros p rest0 l0 h0 d l1 h1 Hp Hrd Hm HM _ IH Hcov0.
    destruct (Hcov0 p d) as [Hlo Hhi]; [apply elem_of_cons; by left | done |].
    assert (minStart (pad_locals l0 d) = minStart l0) as Em by (simpl; lia).
    assert (maxStop (pad_locals l0 d) = maxStop l0) as EM by (simpl; lia).
    rewrite Em, EM in IH.
    destruct IH as (Hm1 & HM1 & IH).
    { intros q dq Hin Hq. destruct (decide (q = p)) as [->|Hne].
      - rewrite lookup_insert_eq in Hq. injection Hq as <-. simpl. lia.
      - rewrite lookup_insert_ne in Hq by done. apply (Hcov0 q dq); [|done].
        apply elem_of_cons. by right. }
    split; [done|]. split; [done|]. intros q dq Hq Hcase.
    destruct (decide (q = p)) as [->|Hne].
    + apply (IH p (padded (minStart l0) (maxStop l0) d)); [apply lookup_insert_eq|].
      by right.
    + apply (IH q dq); [by rewrite lookup_insert_ne|].
      destruct Hcase as [Hin | Heq]; [|by right].
      apply elem_of_cons in Hin as [->|Hin]; [done | by left].
Qed.

(** A pass extends every series. *)
Lemma pad_pass_extends (rest : list nat) l h :
  pass_ready rest l h →
  ∃ l' h', for_args pad_series rest l h = Done (l', h') ∧
    ∀ q d, h !! q = Some d → ∃ d', h' !! q = Some d' ∧ extends d d'.
Proof.
  revert rest l h. apply (pad_pass_ind (λ rest l h l' h',
    ∀ q d, h !! q = Some d → ∃ d', h' !! q = Some d' ∧ extends d d')).
  - intros l h q d Hq. exists d. split; [done | apply extends_refl].
  - intros p rest l h d l' h' Hp Hrd Hm HM _ IH q dq Hq.
    destruct (decide (q = p)) as [->|Hne].
    + assert (dq = d) as -> by congruence.
      destruct (IH p _ (lookup_insert_eq _ _ _)) as (d' & Hd' & Hext).
      exists d'. split; [done|]. eapply extends_trans; [|exact Hext].
      apply padded_extends; simpl; lia.
    + apply IH. by rewrite lookup_insert_ne.
Qed.

(** The bounds after a pass are the bounds before it or bounds of series
    of the pass. *)
Lemma pad_pass_attained (rest : list nat) l h :
  pass_ready rest l h →
  ∃ l' h', for_args pad_series rest l h = Done (l', h') ∧
    (minStart l' = minStart l ∨
     ∃ q d, q ∈ rest ∧ h !! q = Some d ∧ StartTime d = minStart l') ∧
    (maxStop l' = maxStop l ∨
     ∃ q d, q ∈ rest ∧ h !! q = Some d ∧ StopTime d = maxStop l').
Proof.
  revert rest l h. apply (pad_pass_ind (λ rest l h l' h',
    (minStart l' = minStart l ∨
     ∃ q d, q ∈ rest ∧ h !! q = Some d ∧ StartTime d = minStart l') ∧
    (maxStop l' = maxStop l ∨
     ∃ q d, q ∈ rest ∧ h !! q = Some d ∧ StopTime d = maxStop l'))).
  - intros l h. split; by left.
  - intros p rest l h d l' h' Hp Hrd Hm HM _ [Hlo Hhi]. split.
    + destruct Hlo as [Hlo | (q & dq & Hin & Hq & Hlo)].
      * simpl in Hlo. destruct (Z.min_spec (StartTime d) (minStart l)) as [[_ E] | [_ E]].
        -- right. exists p, d. split; [apply elem_of_cons; by left|]. split; [done | lia].
        -- left. lia.
      * destruct (decide (q = p)) as [->|Hne].
        -- rewrite lookup_insert_eq in Hq. injection Hq as <-. simpl in Hlo.
           destruct (Z.min_spec (StartTime d) (minStart l)) as [[_ E] | [_ E]].
           ++ right. exists p, d. split; [apply elem_of_cons; by left|]. split; [done | lia].
           ++ left. lia.
        -- rewrite lookup_insert_ne in Hq by done. right. exists q, dq.
           split; [apply elem_of_cons; by right | done].
    + destruct Hhi as [Hhi | (q & dq & Hin & Hq & Hhi)].
      * simpl in Hhi. destruct (Z.max_spec (StopTime d) (maxStop l)) as [[_ E] | [_ E]].
        -- left. lia.
        -- right. exists p, d. split; [apply elem_of_cons; by left|]. split; [done | lia].
      * destruct (decide (q = p)) as [->|Hne].
        -- rewrite lookup_insert_eq in Hq. injection Hq as <-. simpl in Hhi.
           destruct (Z.max_spec (StopTime d) (maxStop l)) as [[_ E] | [_ E]].
           ++ left. lia.
           ++ right. exists p, d. split; [apply elem_of_cons; by left|]. split; [done | lia].
        -- rewrite lookup_insert_ne in Hq by done. right. exists q, dq.
           split; [apply elem_of_cons; by right | done].
Qed.

Lemma align_pass_false (args : list nat) l h :
  align_pass false args l h = for_args pad_series args l h.
Proof. reflexivity. Qed.

(** What one pass over regular series does. *)
Lemma pad_pass_summary (rest : list nat) l h :
  pass_ready rest l h →
  ∃ l' h', align_pass false rest l h = Done (l', h') ∧
    pass_ready rest l' h' ∧
    (∀ q d, h !! q = Some d →
       q ∈ rest ∨ (minStart l ≤ StartTime d ∧ StopTime d ≤ maxStop l) →
       ∃ d', h' !! q = Some d' ∧ minStart l' ≤ StartTime d' ∧ StopTime d' ≤ maxStop l') ∧
    (∀ q d, h !! q = Some d → ∃ d', h' !! q = Some d' ∧ extends d d') ∧
    (minStart l' = minStart l ∨
     ∃ q d, q ∈ rest ∧ h !! q = Some d ∧ StartTime d = minStart l') ∧
    (maxStop l' = maxStop l ∨
     ∃ q d, q ∈ rest ∧ h !! q = Some d ∧ StopTime d = maxStop l').
Proof.
  intros Hready. pose proof Hready as (Hm & HM & Hreg).
  destruct (pad_pass_returns rest l h Hm HM Hreg) as (l' & h' & Hrun & Hm' & HM' & Hreg').
  exists l', h'. split; [done|]. split; [done|].
  unfold align_pass in Hrun. simpl in Hrun.
  destruct (pad_pass_covers rest l h Hready) as (l1 & h1 & Hrun1 & _ & _ & Hcov).
  destruct (pad_pass_extends rest l h Hready) as (l2 & h2 & Hrun2 & Hext).
  destruct (pad_pass_attained rest l h Hready) as (l3 & h3 & Hrun3 & Hlo & Hhi).
  rewrite Hrun in Hrun1, Hrun2, Hrun3.
  injection Hrun1 as <- <-. injection Hrun2 as <- <-. injection Hrun3 as <- <-.
  done.
Qed.

(** [AlignSeries] on regular series, with extrapolation disabled. *)
Lemma AlignSeries_regular (args : list nat) h :
  args ≠ [] →
  (∀ p, p ∈ args → ∃ d, h !! p = Some d ∧ regular d) →
  ∃ (m M : Z) h',
    AlignSeries false args h = Done (args, h') ∧
    (∃ p d, p ∈ args ∧ h !! p = Some d ∧ StartTime d = m) ∧
    (∃ p d, p ∈ args ∧ h !! p = Some d ∧ StopTime d = M) ∧
    ∀ p d, p ∈ args → h !! p = Some d →
      ∃ d', h' !! p = Some d' ∧ StartTime d' = m ∧ StopTime d' = M ∧ extends d d' ∧
            regular d'.
Proof.
  intros Hne Hreg. destruct args as [|p0 args]; [done|]. clear Hne.
  destruct (Hreg p0) as (a0 & Ha0 & Hr0); [apply elem_of_cons; by left|].
  unfold AlignSeries. cbn [index lookup list_lookup mbind outcome_bind].
  rewrite (load_Some _ _ _ Ha0). cbn [mbind outcome_bind].
  set (l0 := mkLocals (StartTime a0) (StopTime a0) 0 (StepTime a0)).
  assert (pass_ready (p0 :: args) l0 h) as Hready0.
  { split; [apply Hr0|]. split; [apply Hr0 | done]. }
  destruct (pad_pass_summary _ _ _ Hready0)
    as (l1 & h1 & -> & Hready1 & Hcov1 & Hext1 & Hlo1 & Hhi1).
  cbn [mbind outcome_bind].
  pose proof Hready1 as (Hm1 & HM1 & Hreg1).
  destruct (pad_pass_exact (p0 :: args) l1 h1 Hready1) as (l2 & h2 & Hrun2 & _ & _ & Hexact).
  { intros q d1 Hin Hq. destruct (Hreg q Hin) as (d & Hd & _).
    destruct (Hcov1 q d Hd (or_introl Hin)) as (d1' & Hd1' & Hc).
    assert (d1' = d1) as -> by congruence. done. }
  destruct (pad_pass_extends (p0 :: args) l1 h1 Hready1) as (l2' & h2' & Hrun2' & Hext2).
  rewrite Hrun2 in Hrun2'. injection Hrun2' as <- <-.
  destruct (pad_pass_summary _ _ _ Hready1) as (l2' & h2' & Hrun2' & (_ & _ & Hreg2) & _).
  rewrite align_pass_false, Hrun2 in Hrun2'. injection Hrun2' as <- <-.
  unfold align_pass. simpl. simpl in Hrun2. rewrite Hrun2. simpl.
  exists (minStart l1), (maxStop l1), h2. split; [done|]. split; [|split].
  - destruct Hlo1 as [E | (q & d & Hin & Hq & E)].
    + exists p0, a0. split; [apply elem_of_cons; by left|]. split; [done|]. by rewrite E.
    + exists q, d. done.
  - destruct Hhi1 as [E | (q & d & Hin & Hq & E)].
    + exists p0, a0. split; [apply elem_of_cons; by left|]. split; [done|]. by rewrite E.
    + exists q, d. done.
  - intros p d Hin Hp.
    destruct (Hext1 p d Hp) as (d1 & Hd1 & He1).
    destruct (Hexact p d1 Hd1 (or_introl Hin)) as (d2 & Hd2 & Es & Ee).
    destruct (Hext2 p d1 Hd1) as (d2' & Hd2' & He2).
    assert (d2' = d2) as -> by congruence.
    exists d2. split; [done|]. split; [done|]. split; [done|].
    split; [by eapply extends_trans|].
    destruct (Hreg2 p Hin) as (d2' & Hd2'' & Hr2). congruence.
Qed.


(** X9.  With extrapolation disabled, on a list of series with positive
    steps and non-negative time stamps: whenever [AlignSeries] returns,
    every series of the list has the least start and the greatest stop of
    the list; each keeps its name, its step and its other fields, and
    holds at least as many samples as before. *)
Theorem AlignSeries_aligns (args args' : list nat) h h' :
  (∀ p, p ∈ args → ∃ d, h !! p = Some d ∧ regular d) →
  AlignSeries false args h = Done (args', h') →
  ∃ (m M : Z),
    (∃ p d, p ∈ args ∧ h !! p = Some d ∧ StartTime d = m) ∧
    (∃ p d, p ∈ args ∧ h !! p = Some d ∧ StopTime d = M) ∧
    ∀ p d, p ∈ args → h !! p = Some d →
      m ≤ StartTime d ∧ StopTime d ≤ M ∧
      ∃ d', h' !! p = Some d' ∧ StartTime d' = m ∧ StopTime d' = M ∧
            Name d' = Name d ∧ StepTime d' = StepTime d ∧ Other d' = Other d ∧
            (length (Values d) ≤ length (Values d'))%nat.
Proof.
  intros Hreg Hrun.
  assert (args ≠ []) as Hne by (intros ->; discriminate Hrun).
  destruct (AlignSeries_regular args h Hne Hreg) as (m & M & h1 & Hrun1 & Hlo & Hhi & Hall).
  rewrite Hrun1 in Hrun. injection Hrun as <- <-.
  exists m, M. split; [done|]. split; [done|].
  intros p d Hin Hp.
  destruct (Hall p d Hin Hp)
    as (d' & Hd' & Es & Ee & (Hn & Hs & Ho & Hst & Hsp & a & b & Hv) & _).
  split; [lia|]. split; [lia|].
  exists d'. repeat (split; [done|]).
  rewrite Hv, !length_app, !length_replicate. lia.
Qed.

(** The padding loop body on a series that already has the running bounds. *)
Lemma pad_series_same_bounds l d :
  StartTime d = minStart l → StopTime d = maxStop l →
  ∃ l', pad_series l d = Done (l', d) ∧
    minStart l' = minStart l ∧ maxStop l' = maxStop l ∧ minStepTime l' = minStepTime l.
Proof.
  intros Hs He. unfold pad_series, pad_start, pad_stop.
  rewrite Hs. rewrite !Z.ltb_irrefl. cbn [mbind outcome_bind mret outcome_ret].
  rewrite He. rewrite !Z.gtb_ltb, !Z.ltb_irrefl. cbn [mbind outcome_bind mret outcome_ret].
  eexists. split; [reflexivity|]. done.
Qed.

Lemma pad_pass_same_bounds (rest : list nat) l h :
  (∀ p, p ∈ rest →
     ∃ d, h !! p = Some d ∧ StartTime d = minStart l ∧ StopTime d = maxStop l) →
  ∃ l', for_args pad_series rest l h = Done (l', h) ∧
    minStart l' = minStart l ∧ maxStop l' = maxStop l.
Proof.
  revert l. induction rest as [|p rest IH]; intros l Hall; simpl.
  - by exists l.
  - destruct (Hall p) as (d & Hd & Hs & He); [apply elem_of_cons; by left|].
    rewrite (load_Some _ _ _ Hd). simpl.
    destruct (pad_series_same_bounds l d Hs He) as (l1 & -> & Em & EM & _). simpl.
    rewrite insert_id by done.
    destruct (IH l1) as (l' & Hrun & Em' & EM').
    { intros q Hq. rewrite Em, EM. apply Hall. apply elem_of_cons. by right. }
    exists l'. split; [done|]. split; congruence.
Qed.

Lemma AlignSeries_same_bounds (args : list nat) h (m M : Z) :
  args ≠ [] →
  (∀ p, p ∈ args → ∃ d, h !! p = Some d ∧ StartTime d = m ∧ StopTime d = M) →
  AlignSeries false args h = Done (args, h).
Proof.
  intros Hne Hall. destruct args as [|p0 args]; [done|].
  destruct (Hall p0) as (a0 & Ha0 & Hs0 & He0); [apply elem_of_cons; by left|].
  unfold AlignSeries. cbn [index lookup list_lookup mbind outcome_bind].
  rewrite (load_Some _ _ _ Ha0). cbn [mbind outcome_bind].
  rewrite !align_pass_false.
  destruct (pad_pass_same_bounds (p0 :: args)
              (mkLocals (StartTime a0) (StopTime a0) 0 (StepTime a0)) h)
    as (l1 & -> & Em & EM).
  { intros p Hp. simpl. rewrite Hs0, He0. by apply Hall. }
  cbn [mbind outcome_bind]. rewrite align_pass_false.
  destruct (pad_pass_same_bounds (p0 :: args) l1 h) as (l2 & -> & _).
  { intros p Hp. rewrite Em, EM. simpl. rewrite Hs0, He0. by apply Hall. }
  done.
Qed.

(** X10.  With extrapolation disabled, [AlignSeries] changes nothing on a
    non-empty list of series that share their start and their stop,
    whatever their steps and samples; and on series with positive steps and
    non-negative time stamps, whenever a first call returns, a second call
    returns and changes nothing: [AlignSeries] is idempotent. *)
Theorem AlignSeries_idempotent (args : list nat) h :
  args ≠ [] →
  (∀ (m M : Z),
     (∀ p, p ∈ args → ∃ d, h !! p = Some d ∧ StartTime d = m ∧ StopTime d = M) →
     AlignSeries false args h = Done (args, h)) ∧
  (∀ h',
     (∀ p, p ∈ args → ∃ d, h !! p = Some d ∧ regular d) →
     AlignSeries false args h = Done (args, h') →
     AlignSeries false args h' = Done (args, h')).
Proof.
  intros Hne. split.
  - intros m M. by apply AlignSeries_same_bounds.
  - intros h' Hreg Hrun'.
    destruct (AlignSeries_regular args h Hne Hreg) as (m & M & h1 & Hrun & _ & _ & Hall).
    rewrite Hrun in Hrun'. injection Hrun' as <-.
    apply (AlignSeries_same_bounds _ _ m M); [done|].
    intros p Hp. destruct (Hreg p Hp) as (d & Hd & _).
    destruct (Hall p d Hp Hd) as (d' & Hd' & ? & ? & _). eauto.
Qed.

(** The extrapolation loop body on a series of the least step. *)
Lemma extrapolate_series_same_step l d :
  StepTime d = minStepTime l → extrapolate_series l d = Done (l, d).
Proof.
  intros Hs. unfold extrapolate_series. rewrite Hs, Z.ltb_irrefl, Z.gtb_ltb, Z.ltb_irrefl.
  by destruct l.
Qed.

Lemma extrapolate_pass_same_step (rest : list nat) l h :
  (∀ p, p ∈ rest → ∃ d, h !! p = Some d ∧ StepTime d = minStepTime l) →
  for_args extrapolate_series rest l h = Done (l, h).
Proof.
  induction rest as [|p rest IH]; intros Hall; simpl; [done|].
  destruct (Hall p) as (d & Hd & Hs); [apply elem_of_cons; by left|].
  rewrite (load_Some _ _ _ Hd). simpl. rewrite extrapolate_series_same_step by done.
  simpl. rewrite insert_id by done. apply IH.
  intros q Hq. apply Hall. apply elem_of_cons. by right.
Qed.

Lemma pad_series_step l d l' d' :
  pad_series l d = Done (l', d') →
  StepTime d' = StepTime d ∧ minStepTime l' = minStepTime l.
Proof.
  unfold pad_series, pad_start, pad_stop. intros H.
  apply bind_Done in H as (d1 & H1 & H). apply bind_Done in H as (d2 & H2 & H).
  injection H as <- <-. split; [|done].
  assert (StepTime d1 = StepTime d) as E1.
  { destruct (_ <? StartTime d); [|by injection H1 as <-].
    apply bind_Done in H1 as (n & _ & H1). apply bind_Done in H1 as (vs & _ & H1).
    by injection H1 as <-. }
  rewrite <- E1.
  destruct (_ >? StopTime d1); [|by injection H2 as <-].
  apply bind_Done in H2 as (n & _ & H2). apply bind_Done in H2 as (vs & _ & H2).
  by injection H2 as <-.
Qed.

Lemma pad_pass_steps (rest : list nat) l h l' h' (s : Z) :
  for_args pad_series rest l h = Done (l', h') →
  minStepTime l' = minStepTime l ∧
  ∀ q, (∃ d, h !! q = Some d ∧ StepTime d = s) → ∃ d', h' !! q = Some d' ∧ StepTime d' = s.
Proof.
  revert l h. induction rest as [|p rest IH]; intros l h; simpl.
  - intros [= <- <-]. done.
  - intros H. apply bind_Done in H as (d & Hd & H). apply load_Done in Hd.
    apply bind_Done in H as ([l1 d1] & Hbody & H).
    apply pad_series_step in Hbody as [Es El]. apply IH in H as [El' Hall].
    split; [congruence|]. intros q (dq & Hq & Hs). apply Hall.
    destruct (decide (q = p)) as [->|Hne].
    + rewrite lookup_insert_eq. exists d1. split; [done|]. congruence.
    + rewrite lookup_insert_ne by done. eauto.
Qed.

(** X11.  When all the series have the same step, the flag
    [ExtrapolatePoints] makes no difference: [AlignSeries] has the same
    outcome with and without it. *)
Theorem AlignSeries_same_step (args : list nat) h (s : Z) :
  (∀ p, p ∈ args → ∃ d, h !! p = Some d ∧ StepTime d = s) →
  AlignSeries true args h = AlignSeries false args h.
Proof.
  intros Hall. destruct args as [|p0 args]; [done|].
  destruct (Hall p0) as (a0 & Ha0 & Hs0); [apply elem_of_cons; by left|].
  unfold AlignSeries. cbn [index lookup list_lookup mbind outcome_bind].
  rewrite (load_Some _ _ _ Ha0). cbn [mbind outcome_bind].
  assert (∀ l h0, minStepTime l = s →
            (∀ p, p ∈ p0 :: args → ∃ d, h0 !! p = Some d ∧ StepTime d = s) →
            align_pass true (p0 :: args) l h0 = align_pass false (p0 :: args) l h0) as Hpass.
  { intros l h0 El Hall0. unfold align_pass.
    rewrite extrapolate_pass_same_step; [done|].
    intros p Hp. rewrite El. by apply Hall0. }
  rewrite Hpass by done.
  destruct (align_pass false (p0 :: args) _ h) as [[l1 h1]|pn] eqn:Hrun1; [|done].
  cbn [mbind outcome_bind]. rewrite align_pass_false in Hrun1.
  apply (pad_pass_steps _ _ _ _ _ s) in Hrun1 as [El1 Hall1].
  rewrite Hpass; [done | by rewrite El1 |].
  intros p Hp. apply Hall1. by apply Hall.
Qed.

(** X12.  Whenever [AlignSeries] returns, with or without
    extrapolation, it returns the list it was given, allocates no series,
    and leaves the fields of every series outside the list as they are,
    with the number of its samples.  Nothing is stated on the samples of
    such a series: its buffer can share a backing array with a series of
    the list. *)
Theorem AlignSeries_writes_in_place (ep : bool) (args args' : list nat) h h' :
  AlignSeries ep args h = Done (args', h') →
  args' = args ∧ dom h' = dom h ∧
  ∀ p d, p ∉ args → h !! p = Some d →
    ∃ d', h' !! p = Some d' ∧
      Name d' = Name d ∧ StartTime d' = StartTime d ∧ StopTime d' = StopTime d ∧
      StepTime d' = StepTime d ∧ Other d' = Other d ∧
      length (Values d') = length (Values d).
Proof.
  intros Hrun. apply AlignSeries_in_place in Hrun as (Hargs & Hdom & Hframe).
  split; [done|]. split; [done|].
  intros p d Hp Hd. exists d. rewrite Hframe by done. done.
Qed.

End Align_more.

(** ** Alignment and aggregation on a common grid *)

Section Grid_facts.

Context {Rest E : Type} `{!ExprNode E}.

Variable function : list float64 → float64.

Implicit Types (d : MetricData Rest) (h : gmap nat (MetricData Rest)) (l : locals).

Lemma on_grid_stop (s c : Z) d : on_grid s c d → (s | StopTime d - c).
Proof.
  intros (_ & [k Hk] & Hlen). exists (k + Z.of_nat (length (Values d))). lia.
Qed.

Lemma padded_on_grid (s c m M : Z) d :
  0 < s → on_grid s c d → (s | m - c) → (s | M - c) →
  m ≤ StartTime d → StopTime d ≤ M → on_grid s c (padded m M d).
Proof.
  intros Hs Hg [km Hkm] [kM HkM] Hlo Hhi.
  pose proof (on_grid_stop _ _ _ Hg) as [ke Hke].
  destruct Hg as (Hstep & [ks Hks] & Hlen).
  split; [done|]. split; [by exists km|].
  rewrite padded_length. unfold padded. simpl. rewrite Hstep.
  replace (StartTime d - m) with ((ks - km) * s) by lia.
  replace (M - StopTime d) with ((kM - ke) * s) by lia.
  rewrite !Z.quot_mul by lia. nia.
Qed.

(** A pass keeps the series on the grid. *)
Lemma pad_pass_on_grid (s c : Z) (rest : list nat) l h :
  0 < s → pass_ready rest l h →
  (s | minStart l - c) → (s | maxStop l - c) →
  (∀ q d, q ∈ rest → h !! q = Some d → on_grid s c d) →
  ∃ l' h', for_args pad_series rest l h = Done (l', h') ∧
    ∀ q d, h !! q = Some d → on_grid s c d → ∃ d', h' !! q = Some d' ∧ on_grid s c d'.
Proof.
  intros Hs Hready Hm HM Hall.
  destruct (pad_pass_ind (λ rest l h l' h',
    (s | minStart l - c) → (s | maxStop l - c) →
    (∀ q d, q ∈ rest → h !! q = Some d → on_grid s c d) →
    ∀ q d, h !! q = Some d → on_grid s c d → ∃ d', h' !! q = Some d' ∧ on_grid s c d'))
    with (rest := rest) (l := l) (h := h) as (l' & h' & Hrun & HP); [| |done|by eauto].
  - intros l0 h0 _ _ _ q d Hq Hg. eauto.
  - intros p rest0 l0 h0 d l1 h1 Hp Hrd Hm0 HM0 _ IH Hgm HgM Hall0 q dq Hq Hg.
    assert (on_grid s c d) as Hgd by (apply (Hall0 p); [apply elem_of_cons; by left | done]).
    assert ((s | minStart (pad_locals l0 d) - c) ∧ (s | maxStop (pad_locals l0 d) - c))
      as [Hgm1 HgM1].
    { simpl. split.
      - destruct (Z.min_spec (StartTime d) (minStart l0)) as [[_ ->] | [_ ->]];
          [apply Hgd | done].
      - destruct (Z.max_spec (StopTime d) (maxStop l0)) as [[_ ->] | [_ ->]];
          [done | by eapply on_grid_stop]. }
    assert (on_grid s c (padded (minStart (pad_locals l0 d)) (maxStop (pad_locals l0 d)) d))
      as Hgd1 by (apply padded_on_grid; try done; simpl; lia).
    assert (∀ q d0, <[p := padded (minStart (pad_locals l0 d)) (maxStop (pad_locals l0 d)) d]> h0
                      !! q = Some d0 →
                    (q = p ∨ ∃ d1, h0 !! q = Some d1 ∧ (on_grid s c d1 → on_grid s c d0)) ∧
                    (q = p → on_grid s c d0)) as Hlook.
    { intros q0 d0 Hq0. destruct (decide (q0 = p)) as [->|Hne].
      - rewrite lookup_insert_eq in Hq0. injection Hq0 as <-. split; [by left | done].
      - rewrite lookup_insert_ne in Hq0 by done. split; [right; eauto | done]. }
    destruct (decide (q = p)) as [->|Hne].
    + apply (IH Hgm1 HgM1) with (d := padded (minStart (pad_locals l0 d))
                                         (maxStop (pad_locals l0 d)) d);
        [|apply lookup_insert_eq|done].
      intros q0 d0 Hin Hq0. destruct (Hlook q0 d0 Hq0) as [[->|(d1 & Hd1 & Himp)] Hp0].
      * by apply Hp0.
      * apply Himp. apply (Hall0 q0); [apply elem_of_cons; by right | done].
    + apply (IH Hgm1 HgM1) with (d := dq); [|by rewrite lookup_insert_ne|done].
      intros q0 d0 Hin Hq0. destruct (Hlook q0 d0 Hq0) as [[->|(d1 & Hd1 & Himp)] Hp0].
      * by apply Hp0.
      * apply Himp. apply (Hall0 q0); [apply elem_of_cons; by right | done].
Qed.

(** [AlignSeries] on regular series of one grid: all the series end with
    the same bounds and with one sample per step. *)
Lemma AlignSeries_on_grid (s c : Z) (args : list nat) h :
  0 < s → args ≠ [] →
  (∀ p, p ∈ args → ∃ d, h !! p = Some d ∧ regular d ∧ on_grid s c d) →
  ∃ (m M : Z) h',
    AlignSeries false args h = Done (args, h') ∧
    ∀ p, p ∈ args →
      ∃ d', h' !! p = Some d' ∧ StartTime d' = m ∧ StopTime d' = M ∧
            Z.of_nat (length (Values d')) * s = M - m.
Proof.
  intros Hs Hne Hall.
  assert (∀ p, p ∈ args → ∃ d, h !! p = Some d ∧ regular d) as Hreg.
  { intros p Hp. destruct (Hall p Hp) as (d & ? & ? & _). eauto. }
  destruct (AlignSeries_regular args h Hne Hreg) as (m & M & h' & Hrun & _ & _ & Hres).
  exists m, M, h'. split; [done|].
  (* the two passes keep the grid *)
  destruct args as [|p0 args]; [done|].
  destruct (Hall p0) as (a0 & Ha0 & Hr0 & Hg0); [apply elem_of_cons; by left|].
  unfold AlignSeries in Hrun. cbn [index lookup list_lookup mbind outcome_bind] in Hrun.
  rewrite (load_Some _ _ _ Ha0) in Hrun. cbn [mbind outcome_bind] in Hrun.
  apply bind_Done in Hrun as ([l1 h1] & Hrun1 & Hrun).
  apply bind_Done in Hrun as ([l2 h2] & Hrun2 & Hrun). injection Hrun as <-.
  set (l0 := mkLocals (StartTime a0) (StopTime a0) 0 (StepTime a0)) in *.
  assert (pass_ready (p0 :: args) l0 h) as Hready0.
  { split; [apply Hr0|]. split; [apply Hr0 | done]. }
  destruct (pad_pass_summary _ _ _ Hready0)
    as (l1' & h1' & Hrun1' & Hready1 & _ & _ & Hlo1 & Hhi1).
  rewrite Hrun1 in Hrun1'. injection Hrun1' as <- <-.
  destruct (pad_pass_on_grid s c (p0 :: args) l0 h Hs Hready0)
    as (l1' & h1' & Hrun1' & Hgrid1).
  { apply Hg0. } { by eapply on_grid_stop. }
  { intros q d Hin Hq. destruct (Hall q Hin) as (d' & Hd' & _ & Hg). congruence. }
  rewrite align_pass_false in Hrun1. rewrite Hrun1 in Hrun1'. injection Hrun1' as <- <-.
  assert (∀ q, q ∈ p0 :: args → ∃ d1, h1 !! q = Some d1 ∧ on_grid s c d1) as Hall1.
  { intros q Hin. destruct (Hall q Hin) as (d & Hd & _ & Hg). by apply (Hgrid1 q d). }
  destruct (pad_pass_on_grid s c (p0 :: args) l1 h1 Hs Hready1)
    as (l2' & h2' & Hrun2' & Hgrid2).
  { destruct Hlo1 as [-> | (q & d & Hin & Hq & <-)]; [apply Hg0|].
    destruct (Hall q Hin) as (d' & Hd' & _ & Hg). assert (d' = d) as -> by congruence.
    apply Hg. }
  { destruct Hhi1 as [-> | (q & d & Hin & Hq & <-)]; [by eapply on_grid_stop|].
    destruct (Hall q Hin) as (d' & Hd' & _ & Hg). assert (d' = d) as -> by congruence.
    by eapply on_grid_stop. }
  { intros q d Hin Hq. destruct (Hall1 q Hin) as (d1 & Hd1 & Hg). congruence. }
  rewrite align_pass_false in Hrun2. rewrite Hrun2 in Hrun2'. injection Hrun2' as <- <-.
  intros p Hin. destruct (Hall p Hin) as (d & Hd & _ & _).
  destruct (Hres p d Hin Hd) as (d' & Hd' & Es & Ee & _).
  destruct (Hall1 p Hin) as (d1 & Hd1 & Hg1).
  destruct (Hgrid2 p d1 Hd1 Hg1) as (d2 & Hd2 & (_ & _ & Hlen)).
  assert (d2 = d') as -> by congruence.
  exists d'. split; [done|]. split; [done|]. split; [done|]. by rewrite Hlen, Es, Ee.
Qed.

(** [AggregateSeries] after an alignment that leaves every series at
    least as long as the first one. *)
Lemma AggregateSeries_run (ep : bool) (e : E) (p0 : nat) (args : list nat) h h1 a0 :
  AlignSeries ep (p0 :: args) h = Done (p0 :: args, h1) →
  h1 !! p0 = Some a0 →
  (∀ p, p ∈ p0 :: args →
     ∃ d, h1 !! p = Some d ∧ (length (Values a0) ≤ length (Values d))%nat) →
  ∃ vals,
    AggregateSeries ep function e (p0 :: args) h
    = Done (([fresh (dom h1)], None),
            <[fresh (dom h1) :=
                mkMetricData (call_name (Target e) (RawArgs e)) (StartTime a0) (StopTime a0)
                  (StepTime a0) vals (Other a0)]> h1) ∧
    length vals = length (Values a0) ∧
    ∀ i, (i < length (Values a0))%nat →
      ∃ values, column_at h1 (p0 :: args) i values ∧ vals !! i = Some (function values).
Proof.
  intros Halign Ha0 Hlen.
  unfold AggregateSeries. rewrite Halign. cbn [mbind outcome_bind index lookup list_lookup].
  rewrite (load_Some _ _ _ Ha0). cbn [mbind outcome_bind].
  destruct (aggregate_loop_seq function h1 (p0 :: args) (length (Values a0)) 0
              (replicate (length (Values a0)) f64_zero))
    as (out' & -> & Hl & _ & Hsamples); [done | by rewrite length_replicate | |].
  { intros i Hi. apply column_at_exists. intros p Hp.
    destruct (Hlen p Hp) as (d & Hd & Hle). exists d. split; [done | lia]. }
  cbn [mbind outcome_bind alloc mret outcome_ret].
  exists out'. split; [done|]. split; [by rewrite Hl, length_replicate|].
  intros i Hi. apply Hsamples. lia.
Qed.

(** X13.  With extrapolation disabled, on a list of series of one grid
    (the same positive step, starts that differ by multiples of the step,
    one sample per step of their interval, non-negative time stamps):
    whenever [AlignSeries] returns on the list, [AggregateSeries] returns
    one new series and does not panic.  That series spans the least start
    and the greatest stop of the list with one sample per step, and every
    aligned input holds as many samples. *)
Theorem AggregateSeries_on_grid (s c : Z) (e : E) (args : list nat) h h1 :
  0 < s →
  (∀ p, p ∈ args → ∃ d, h !! p = Some d ∧ regular d ∧ on_grid s c d) →
  AlignSeries false args h = Done (args, h1) →
  ∃ (m M : Z) pr r,
    AggregateSeries false function e args h = Done (([pr], None), <[pr := r]> h1) ∧
    (pr ∉ dom h1) ∧
    (∃ p d, p ∈ args ∧ h !! p = Some d ∧ StartTime d = m) ∧
    (∃ p d, p ∈ args ∧ h !! p = Some d ∧ StopTime d = M) ∧
    (∀ p d, p ∈ args → h !! p = Some d → m ≤ StartTime d ∧ StopTime d ≤ M) ∧
    StartTime r = m ∧ StopTime r = M ∧ StepTime r = s ∧
    Z.of_nat (length (Values r)) * s = M - m ∧
    ∀ p, p ∈ args → ∃ d', h1 !! p = Some d' ∧ length (Values d') = length (Values r).
Proof.
  intros Hs Hall Hrun0.
  assert (args ≠ []) as Hne by (intros ->; discriminate Hrun0).
  destruct (AlignSeries_on_grid s c args h Hs Hne Hall) as (m & M & h1' & Hrun & Hres).
  rewrite Hrun0 in Hrun. injection Hrun as <-.
  assert (∀ p, p ∈ args → ∃ d, h !! p = Some d ∧ regular d) as Hreg.
  { intros p Hp. destruct (Hall p Hp) as (d & ? & ? & _). eauto. }
  destruct (AlignSeries_regular args h Hne Hreg)
    as (m' & M' & h1' & Hrun' & Hlo & Hhi & Hext).
  rewrite Hrun0 in Hrun'. injection Hrun' as <-.
  destruct args as [|p0 args]; [done|].
  destruct (Hres p0) as (a0 & Ha0 & Es0 & Ee0 & Hl0); [apply elem_of_cons; by left|].
  assert (m' = m ∧ M' = M) as [-> ->].
  { destruct (Hall p0) as (d0 & Hd0 & _); [apply elem_of_cons; by left|].
    destruct (Hext p0 d0) as (a0' & Ha0' & Es' & Ee' & _);
      [apply elem_of_cons; by left | done |].
    assert (a0' = a0) as -> by congruence. split; congruence. }
  assert (∀ p, p ∈ p0 :: args →
            ∃ d', h1 !! p = Some d' ∧ length (Values d') = length (Values a0)) as Hsame.
  { intros p Hp. destruct (Hres p Hp) as (d' & Hd' & _ & _ & Hl).
    exists d'. split; [done|]. nia. }
  destruct (AggregateSeries_run false e p0 args h h1 a0 Hrun0 Ha0)
    as (vals & Hagg & Hlv & _).
  { intros p Hp. destruct (Hsame p Hp) as (d' & Hd' & Hl). exists d'. split; [done | lia]. }
  exists m, M. eexists _, _. split; [exact Hagg|].
  split; [apply is_fresh|]. split; [done|]. split; [done|]. split.
  { intros p d Hin Hp.
    destruct (Hext p d Hin Hp) as (d' & _ & Es & Ee & (_ & _ & _ & ? & ? & _) & _). lia. }
  simpl. split; [done|]. split; [done|]. split.
  - destruct (Hall p0) as (d0 & Hd0 & _ & (Hstep & _)); [apply elem_of_cons; by left|].
    destruct (Hext p0 d0) as (a0' & Ha0' & _ & _ & (_ & Hst & _) & _);
      [apply elem_of_cons; by left | done |].
    congruence.
  - split; [by rewrite Hlv|]. intros p Hp. rewrite Hlv. by apply Hsame.
Qed.

Lemma AlignSeries_single (ep : bool) (p : nat) h d :
  h !! p = Some d → AlignSeries ep [p] h = Done ([p], h).
Proof.
  intros Hp. unfold AlignSeries. cbn [index lookup list_lookup mbind outcome_bind].
  rewrite (load_Some _ _ _ Hp). cbn [mbind outcome_bind].
  assert (∀ l, minStart l = StartTime d → maxStop l = StopTime d →
               minStepTime l = StepTime d →
               ∃ l', align_pass ep [p] l h = Done (l', h) ∧ minStart l' = StartTime d ∧
                     maxStop l' = StopTime d ∧ minStepTime l' = StepTime d) as Hpass.
  { intros l Em EM Es. unfold align_pass.
    assert ((if ep then for_args extrapolate_series [p] l h else mret (l, h)) = Done (l, h))
      as ->.
    { destruct ep; [|done]. apply extrapolate_pass_same_step.
      intros q Hq. apply list_elem_of_singleton in Hq as ->. eauto. }
    cbn [mbind outcome_bind]. simpl. rewrite (load_Some _ _ _ Hp). simpl.
    destruct (pad_series_same_bounds l d) as (l' & -> & Em' & EM' & Es'); [done..|].
    cbn [mbind outcome_bind mret outcome_ret]. rewrite insert_id by done.
    exists l'. split; [done|]. repeat split; congruence. }
  destruct (Hpass (mkLocals (StartTime d) (StopTime d) 0 (StepTime d)))
    as (l1 & -> & Em & EM & Es); [done..|].
  cbn [mbind outcome_bind].
  destruct (Hpass l1) as (l2 & -> & _); [done..|]. done.
Qed.

(** X14.  On a single series [AggregateSeries] needs no alignment and
    applies the aggregate function to each sample on its own: it returns one
    new series with the bounds, step and other fields of the input, named
    after the call, and leaves the input as it is. *)
Theorem AggregateSeries_single (ep : bool) (e : E) (p : nat) h d :
  h !! p = Some d →
  AggregateSeries ep function e [p] h
  = Done (([fresh (dom h)], None),
          <[fresh (dom h) :=
              mkMetricData (call_name (Target e) (RawArgs e)) (StartTime d) (StopTime d)
                (StepTime d) ((λ x, function [x]) <$> Values d) (Other d)]> h).
Proof.
  intros Hp.
  destruct (AggregateSeries_run ep e p [] h h d (AlignSeries_single ep p h d Hp) Hp)
    as (vals & -> & Hlv & Hsamples).
  { intros q Hq. apply list_elem_of_singleton in Hq as ->. eauto. }
  do 4 f_equal. apply list_eq. intros i. rewrite list_lookup_fmap.
  destruct (decide (i < length (Values d))%nat) as [Hi|Hi].
  - destruct (Hsamples i Hi) as (values & Hcol & ->).
    inversion Hcol as [|? x ? ? (d' & Hd' & Hx) Hnil]; subst.
    inversion Hnil; subst. assert (d' = d) as -> by congruence.
    by rewrite Hx.
  - rewrite !lookup_ge_None_2 by lia. done.
Qed.

End Grid_facts.

(** ** Metric-name extraction, continued *)

Lemma get_append_r (pre t : string) (i : nat) :
  String.get (String.length pre + i) (pre +:+ t) = String.get i t.
Proof. induction pre as [|c pre IH]; [done|]. rewrite append_cons. simpl. exact IH. Qed.

Lemma get_append_l (pre t : string) (i : nat) :
  (i < String.length pre)%nat → String.get i (pre +:+ t) = String.get i pre.
Proof.
  revert i. induction pre as [|c pre IH]; intros i Hi; simpl in Hi; [lia|].
  rewrite append_cons. destruct i as [|i]; simpl; [done|]. apply IH. lia.
Qed.

Lemma substring_append_r (pre t : string) (a m : nat) :
  substring (String.length pre + a) m (pre +:+ t) = substring a m t.
Proof. induction pre as [|c pre IH]; [done|]. rewrite append_cons. simpl. exact IH. Qed.

Lemma substring_prefix (n t : string) :
  substring 0 (String.length n) (n +:+ t) = n.
Proof.
  induction n as [|c n IH].
  - simpl. by destruct (EmptyString +:+ t).
  - rewrite append_cons. simpl. by rewrite IH.
Qed.

Lemma substring_all (s : string) : substring 0 (String.length s) s = s.
Proof.
  pose proof (substring_prefix s EmptyString) as H. by rewrite append_nil_r in H.
Qed.

Lemma get_lt_Some (s : string) (i : nat) :
  (i < String.length s)%nat → ∃ c, String.get i s = Some c.
Proof.
  revert i. induction s as [|a s IH]; intros i Hi; simpl in Hi; [lia|].
  destruct i as [|i]; simpl; [eauto|]. apply IH. lia.
Qed.

Lemma suffix_append_r (pre t : string) (i : nat) :
  suffix (pre +:+ t) (String.length pre + i) = suffix t i.
Proof.
  unfold suffix. rewrite append_length.
  replace (String.length pre + String.length t - (String.length pre + i))%nat
    with (String.length t - i)%nat by lia.
  apply substring_append_r.
Qed.

Lemma all_name_chars_get (IsNameChar : ascii → bool) (n : string) (i : nat) (c : ascii) :
  all_name_chars IsNameChar n = true → String.get i n = Some c → IsNameChar c = true.
Proof.
  revert i. induction n as [|a n IH]; intros i Hall; simpl; [done|].
  simpl in Hall. apply andb_true_iff in Hall as [Ha Hn].
  destruct i as [|i]; [by intros [= <-] | by apply IH].
Qed.

Section ExtractMetric_more.

Variable IsNameChar : ascii → bool.
Variable InRangeTables : Z → bool.

Local Abbreviation scan := (scan IsNameChar InRangeTables).
Local Abbreviation scan_step := (scan_step IsNameChar InRangeTables).
Local Abbreviation scan_byte := (scan_byte IsNameChar InRangeTables).
Local Abbreviation ExtractMetric := (ExtractMetric IsNameChar InRangeTables).

(** One iteration after a prefix is the iteration without the prefix,
    moved by the length of the prefix. *)
Lemma scan_step_shift (pre t : string) (start braces i : nat) :
  scan_step (pre +:+ t) (String.length pre + start) braces (String.length pre + i)
  = shift_control (String.length pre) (scan_step t start braces i).
Proof.
  unfold scan_step. rewrite get_append_r.
  destruct (String.get i t) as [c|]; [|done].
  unfold scan_byte. rewrite suffix_append_r.
  destruct (DecodeRuneInString (suffix t i)) as [r w].
  repeat (match goal with
          | |- context [if ?x then _ else _] => destruct x
          end; simpl; try done);
    f_equal; lia.
Qed.

Lemma scan_shift (pre t : string) (n start braces i : nat) :
  (String.length t - i ≤ n)%nat →
  scan (pre +:+ t) (String.length pre + start) braces (String.length pre + i)
  = (String.length pre + (scan t start braces i).1,
     String.length pre + (scan t start braces i).2)%nat.
Proof.
  revert start braces i. induction n as [|n IH]; intros start braces i Hn.
  - rewrite (scan_end _ _ t) by lia.
    rewrite scan_end by (rewrite append_length; lia). done.
  - rewrite (scan_loop _ _ (pre +:+ t)), (scan_loop _ _ t), scan_step_shift.
    destruct (scan_step t start braces i) as [|start' braces' i'] eqn:Hstep; [done|].
    simpl. apply IH.
    destruct (scan_step_Continue _ _ _ _ _ _ _ _ _ Hstep) as (? & ? & _). lia.
Qed.

(** The scan runs over name characters. *)
Lemma scan_name_chars (n t : string) (start braces : nat) (k : nat) :
  all_name_chars IsNameChar n = true → (k ≤ String.length n)%nat →
  scan (n +:+ t) start braces (String.length n - k)
  = scan (n +:+ t) start braces (String.length n).
Proof.
  intros Hall. induction k as [|k IH]; intros Hk.
  - by rewrite Nat.sub_0_r.
  - destruct (get_lt_Some n (String.length n - S k)) as [c Hget]; [lia|].
    rewrite (scan_name_char _ _ _ c).
    + replace (String.length n - S k + 1)%nat with (String.length n - k)%nat by lia.
      apply IH. lia.
    + rewrite get_append_l by lia. done.
    + by eapply all_name_chars_get.
Qed.

Lemma slice_prefix (n t : string) :
  slice (n +:+ t) 0 (String.length n) = Done n.
Proof.
  unfold slice. rewrite decide_True by (rewrite append_length; lia).
  by rewrite Nat.sub_0_r, substring_prefix.
Qed.

(** X15.  A text that consists of name characters, alone or followed by
    a semicolon, a closing parenthesis, a comma or a closing brace that is
    not a name character, yields exactly these name characters: the name
    ends at the first such terminator, whatever follows it. *)
Theorem ExtractMetric_name (n rest : string) :
  all_name_chars IsNameChar n = true →
  rest = EmptyString ∨
  (∃ c rest', rest = String c rest' ∧ IsNameChar c = false ∧
     (c = ";" ∨ c = ")" ∨ c = "," ∨ c = "}")%char) →
  ExtractMetric (n +:+ rest) = Done n.
Proof.
  intros Hall Hrest. unfold ExtractMetric.
  pose proof (scan_name_chars n rest 0 0 (String.length n) Hall (Nat.le_refl _)) as Hscan.
  rewrite Nat.sub_diag in Hscan. rewrite Hscan.
  assert (scan (n +:+ rest) 0 0 (String.length n) = (0%nat, String.length n)) as ->.
  { destruct Hrest as [-> | (c & rest' & -> & Hc & Hterm)].
    - apply scan_end. rewrite append_length. simpl. lia.
    - assert (String.get (String.length n) (n +:+ String c rest') = Some c) as Hget.
      { rewrite <- (Nat.add_0_r (String.length n)) at 1. by rewrite get_append_r. }
      destruct Hterm as [-> | [-> | [-> | ->]]].
      + eapply scan_terminator; eauto.
      + eapply scan_terminator; eauto.
      + by rewrite scan_comma.
      + by rewrite scan_close_brace. }
  apply slice_prefix.
Qed.

Lemma DecodeRuneInString_ascii (c : ascii) (t : string) :
  byteZ c < 0x80 → DecodeRuneInString (String c t) = (byteZ c, 1%nat).
Proof.
  intros Hc. unfold DecodeRuneInString, first.
  destruct (Z.ltb_spec (byteZ c) 0x80) as [_|?]; [|lia]. reflexivity.
Qed.

(** X16.  A name followed by a character that is neither a name
    character, nor structural, nor in the range tables, is discarded with
    that character: the text of a call yields what its argument text
    yields.  The character is an ASCII character, such as the opening
    parenthesis. *)
Theorem ExtractMetric_discards_prefix (f rest : string) (c : ascii) :
  all_name_chars IsNameChar f = true →
  byteZ c < 0x80 → IsNameChar c = false → InRangeTables (byteZ c) = false →
  c ≠ ";"%char → c ≠ "{"%char → c ≠ "}"%char → c ≠ ","%char → c ≠ ")"%char →
  ExtractMetric (f +:+ String c rest) = ExtractMetric rest.
Proof.
  intros Hall Hascii Hc Hr H1 H2 H3 H4 H5. unfold ExtractMetric.
  pose proof (scan_name_chars f (String c rest) 0 0 (String.length f) Hall (Nat.le_refl _))
    as Hscan.
  rewrite Nat.sub_diag in Hscan. rewrite Hscan.
  assert (String.get (String.length f) (f +:+ String c rest) = Some c) as Hget.
  { rewrite <- (Nat.add_0_r (String.length f)) at 1. by rewrite get_append_r. }
  rewrite (scan_other _ _ _ c) by done.
  assert (suffix (f +:+ String c rest) (String.length f) = String c rest) as ->.
  { rewrite <- (Nat.add_0_r (String.length f)) at 1. rewrite suffix_append_r.
    unfold suffix. rewrite Nat.sub_0_r. apply substring_all. }
  rewrite DecodeRuneInString_ascii by done. rewrite Hr.
  assert (f +:+ String c rest = (f +:+ String c EmptyString) +:+ rest) as Hs.
  { by rewrite append_assoc. }
  assert (String.length (f +:+ String c EmptyString) = (String.length f + 1)%nat) as Hk.
  { rewrite append_length. simpl. lia. }
  rewrite Hs.
  pose proof (scan_shift (f +:+ String c EmptyString) rest (String.length rest) 0 0 0) as Hsh.
  rewrite Hk, !Nat.add_0_r in Hsh. rewrite Hsh by lia.
  pose proof (scan_within IsNameChar InRangeTables rest (String.length rest) 0 0 0) as Hw.
  destruct (scan rest 0 0 0) as [a b]. simpl in *.
  unfold slice. rewrite append_length, Hk.
  rewrite decide_True by lia. rewrite decide_True by lia.
  f_equal. rewrite <- Hk.
  replace (String.length (f +:+ String c EmptyString) + b
           - (String.length (f +:+ String c EmptyString) + a))%nat with (b - a)%nat by lia.
  apply substring_append_r.
Qed.

End ExtractMetric_more.

Lemma get_ge_None (s : string) (i : nat) :
  (String.length s ≤ i)%nat → String.get i s = None.
Proof.
  revert i. induction s as [|a s IH]; intros i Hi; [by destruct i|].
  simpl in Hi. destruct i as [|i]; [lia|]. simpl. apply IH. lia.
Qed.

Lemma get_suffix (s : string) (i j : nat) :
  String.get j (suffix s i) = String.get (i + j) s.
Proof.
  unfold suffix. destruct (decide (j < String.length s - i)%nat) as [Hj|Hj].
  - rewrite substring_correct1 by done. f_equal. lia.
  - rewrite substring_correct2 by lia. symmetry. apply get_ge_None. lia.
Qed.

Lemma first_cases (b : Z) :
  first b ∈ [0xF0; 0xF1; 0x02; 0x13; 0x03; 0x23; 0x34; 0x04; 0x44].
Proof.
  unfold first.
  repeat match goal with
         | |- context [if ?c then _ else _] => destruct c
         end;
    repeat first [apply list_elem_of_here | apply list_elem_of_further].
Qed.

(** The bytes of a decoded rune after the first one are not ASCII bytes. *)
Lemma DecodeRuneInString_continuation (c0 : ascii) (t : string) (j : nat) (cj : ascii) :
  (0 < j < (DecodeRuneInString (String c0 t)).2)%nat →
  String.get j (String c0 t) = Some cj → 0x80 ≤ byteZ cj.
Proof.
  unfold DecodeRuneInString.
  pose proof (first_cases (byteZ c0)) as Hx.
  repeat (apply elem_of_cons in Hx as [-> | Hx]); [..|by apply elem_of_nil in Hx];
    cbn [Z.leb Z.compare Pos.compare Pos.compare_cont Z.testbit Z.land Pos.land
         Z.shiftr Z.shiftl acceptRanges Z.eqb Pos.eqb snd fst];
    unfold continuation;
    repeat match goal with
           | |- context [if ?b then _ else _] => destruct b eqn:?
           | |- context [match ?x with EmptyString => _ | String _ _ => _ end] => destruct x
           end;
    simpl; try lia;
    intros Hj Hget;
    repeat match type of Hj with
           | context [if ?b then _ else _] => destruct b eqn:?; simpl in Hj
           end;
    try lia;
    try solve [ match goal with
                | H : (?a =? ?b) = _ |- _ => vm_compute in H; discriminate H
                | H : (?a <=? ?b) = _ |- _ => vm_compute in H; discriminate H
                | H : (?a <? ?b) = _ |- _ => vm_compute in H; discriminate H
                end ];
    repeat match goal with
           | H : (_ || _) = false |- _ => apply orb_false_iff in H as [? ?]
           | H : negb _ = false |- _ => apply negb_false_iff in H
           | H : (_ && _) = true |- _ => apply andb_true_iff in H as [? ?]
           | H : (_ <? _) = false |- _ => apply Z.ltb_ge in H
           | H : (_ <=? _) = true |- _ => apply Z.leb_le in H
           end;
    try solve [destruct j as [|[|[|[|j]]]]; simpl in Hget; try lia;
               injection Hget as <-; lia].
Qed.

Section ExtractMetric_terminators.

Variable IsNameChar : ascii → bool.
Variable InRangeTables : Z → bool.

Local Abbreviation scan := (scan IsNameChar InRangeTables).
Local Abbreviation scan_step := (scan_step IsNameChar InRangeTables).
Local Abbreviation scan_byte := (scan_byte IsNameChar InRangeTables).
Local Abbreviation ExtractMetric := (ExtractMetric IsNameChar InRangeTables).

Hypothesis semicolon_no_name_char : IsNameChar ";" = false.
Hypothesis paren_no_name_char : IsNameChar ")" = false.

Lemma no_terminator_before_next (s : string) (i : nat) (c : ascii) :
  String.get i s = Some c → c ≠ ";"%char → c ≠ ")"%char →
  no_terminator_before s i → no_terminator_before s (i + 1).
Proof.
  intros Hget H1 H2 Hinv j cj Hj Hgetj.
  destruct (decide (j = i)) as [->|Hne].
  - rewrite Hget in Hgetj. injection Hgetj as <-. done.
  - apply (Hinv j cj); [lia|done].
Qed.

(** An iteration that goes on has passed no semicolon and no closing
    parenthesis: the bytes it skips after the first one of a rune are not
    ASCII bytes. *)
Lemma scan_step_no_terminator (s : string) (start braces i start' braces' i' : nat) :
  scan_step s start braces i = Continue start' braces' i' →
  no_terminator_before s i → no_terminator_before s i'.
Proof.
  unfold scan_step. destruct (String.get i s) as [c|] eqn:Hget; [|discriminate].
  unfold scan_byte.
  destruct (IsNameChar c) eqn:Hname.
  { intros [= <- <- <-]. apply (no_terminator_before_next s i c); [done|..|].
    - intros ->. congruence.
    - intros ->. congruence. }
  destruct (Ascii.eqb c ";") eqn:Hsemi; [discriminate|].
  destruct (Ascii.eqb c ")") eqn:Hparen.
  { apply Ascii.eqb_eq in Hparen as ->. simpl. discriminate. }
  apply Ascii.eqb_neq in Hsemi, Hparen.
  destruct (Ascii.eqb c "{"); [intros [= <- <- <-]; by apply (no_terminator_before_next s i c)|].
  destruct (Ascii.eqb c "}").
  { destruct (Nat.eqb braces 0); [discriminate|].
    intros [= <- <- <-]; by apply (no_terminator_before_next s i c). }
  destruct (Ascii.eqb c ",").
  { destruct (Nat.eqb braces 0); [discriminate|].
    intros [= <- <- <-]; by apply (no_terminator_before_next s i c). }
  destruct (suffix_get _ _ _ Hget) as [t Ht]. rewrite Ht.
  pose proof (DecodeRuneInString_continuation c t) as Hcont.
  destruct (DecodeRuneInString (String c t)) as [r w]; cbn [snd] in Hcont.
  assert (no_terminator_before s i → no_terminator_before s (i + w)) as Hgoal.
  { intros Hinv j cj Hj Hgetj.
    destruct (decide (j < i)%nat) as [Hlt|Hge]; [by apply (Hinv j cj)|].
    destruct (decide (j = i)) as [->|Hne].
    { rewrite Hget in Hgetj. injection Hgetj as <-. done. }
    assert (0x80 ≤ byteZ cj) as Hhigh.
    { apply (Hcont (j - i)%nat cj); [lia|].
      rewrite <- Ht, get_suffix. rewrite <- Hgetj. f_equal. lia. }
    split; intros ->; vm_compute in Hhigh; by apply Hhigh. }
  destruct (InRangeTables r); intros [= <- <- <-]; exact Hgoal.
Qed.

Lemma scan_no_terminator (s : string) (n start braces i : nat) :
  (String.length s - i ≤ n)%nat →
  no_terminator_before s i → no_terminator_before s (scan s start braces i).2.
Proof.
  revert start braces i. induction n as [|n IH]; intros start braces i Hn Hinv.
  - rewrite scan_end by lia. done.
  - rewrite scan_loop.
    destruct (scan_step s start braces i) as [|start' braces' i'] eqn:Hstep; [done|].
    apply IH.
    + destruct (scan_step_Continue _ _ _ _ _ _ _ _ _ Hstep) as (? & ? & _). lia.
    + by apply (scan_step_no_terminator s start braces i start' braces' i').
Qed.

(** X17.  When the semicolon and the closing parenthesis are
    no name characters, the extracted name contains neither of them, whatever
    the text is. *)
Theorem ExtractMetric_no_terminator (s name : string) (k : nat) (c : ascii) :
  ExtractMetric s = Done name →
  String.get k name = Some c → c ≠ ";"%char ∧ c ≠ ")"%char.
Proof.
  intros Hrun Hget.
  destruct (ExtractMetric_returns IsNameChar InRangeTables s) as (start & i & Hscan & Hb & Hres).
  rewrite Hres in Hrun. injection Hrun as <-.
  pose proof (scan_no_terminator s (String.length s) 0 0 0) as Hinv.
  rewrite Hscan in Hinv. simpl in Hinv.
  assert (k < i - start)%nat as Hk.
  { destruct (decide (k < i - start)%nat) as [|Hk]; [done|].
    rewrite substring_correct2 in Hget by lia. discriminate. }
  rewrite substring_correct1 in Hget by done.
  assert (no_terminator_before s 0) as H0 by (intros ? ? ?; lia).
  apply (Hinv ltac:(lia) H0 (k + start)%nat c); [lia|done].
Qed.

End ExtractMetric_terminators.

(** * The theorems at concrete inputs *)

Lemma RemoveEmptySeriesFromName_joins_witness :
  RemoveEmptySeriesFromName demo_heap [1%nat; 2%nat; 3%nat] = Done "a,b.x,b.y"%string ∧
  RemoveEmptySeriesFromName demo_heap [1%nat; 9%nat] = Panic NilDereference.
Proof.
  split.
  - apply (proj1 (RemoveEmptySeriesFromName_joins demo_heap [1%nat; 2%nat; 3%nat])
             ["a"; "b.x"; "b.y"]%string).
    repeat constructor; eexists; (split; reflexivity).
  - apply (proj2 (RemoveEmptySeriesFromName_joins demo_heap [1%nat; 9%nat]) 9%nat).
    + apply list_elem_of_further, list_elem_of_here.
    + reflexivity.
Defined.

(** The series [ghost] does not exist: the raw arguments [a,ghost] of the
    call become [a]. *)
Lemma GetSeriesArgsAndRemoveNonExisting_rewrites_witness :
  GetSeriesArgsAndRemoveNonExisting (Some demo_Eval)
    (FuncNode "sumSeries" "a,ghost" [NameNode "a"; NameNode "ghost"]) 0 60 () (demo_state 0)
  = Done (([1%nat], None), FuncNode "sumSeries" "a" [NameNode "a"; NameNode "ghost"],
          demo_state 2).
Proof.
  refine (proj2 (proj2 (GetSeriesArgsAndRemoveNonExisting_rewrites (Some demo_Eval) 0 60 ()
                          (FuncNode "sumSeries" "a,ghost" [NameNode "a"; NameNode "ghost"])
                          (demo_state 0) [1%nat] None (demo_state 2) _))
            _ _ ["a"%string] _).
  - reflexivity.
  - reflexivity.
  - simpl. lia.
  - repeat constructor; eexists; (split; reflexivity).
Defined.

Lemma GetSeriesArgs_result_witness :
  (@None error = None → [1%nat; 2%nat; 3%nat] ≠ []) ∧
  (@None error ≠ None → [1%nat; 2%nat; 3%nat] = []).
Proof.
  apply (GetSeriesArgs_result (Some demo_Eval) 0 60 () [NameNode "a"; NameNode "b"]
           (demo_state 0) [1%nat; 2%nat; 3%nat] None (demo_state 2)).
  reflexivity.
Defined.

Lemma GetSeriesArgs_app_witness :
  GetSeriesArgs (Some demo_Eval) ([NameNode "a"] ++ [NameNode "ghost"; NameNode "b"]) 0 60 ()
    (demo_state 0)
  = Done (([1%nat] ++ [2%nat; 3%nat], None), demo_state 3).
Proof.
  refine (proj1 (proj2 (proj2 (GetSeriesArgs_app (Some demo_Eval) 0 60 ()
                                 [NameNode "a"] [NameNode "ghost"; NameNode "b"]
                                 (demo_state 0) [1%nat] None (demo_state 1) _))
                   _ [2%nat; 3%nat] None (demo_state 3) _) _).
  - reflexivity.
  - reflexivity.
  - reflexivity.
  - left. reflexivity.
Defined.

Lemma GetSeriesArgs_without_evaluator_witness :
  GetSeriesArgs (@None (node → Z → Z → () → State () nat → outcome (result * State () nat)))
    [NameNode "a"] 0 60 () (demo_state 0)
  = Panic NilDereference.
Proof.
  exact (GetSeriesArgs_without_evaluator None 0 60 () (NameNode "a") [] (demo_state 0)
           eq_refl).
Defined.

Lemma ForEachSeriesDo_errors_witness :
  ForEachSeriesDo (Some demo_Eval) copy_transform (NameNode "a") 0 60 () (demo_state 0)
  = Panic IndexOutOfRange ∧
  ForEachSeriesDo (Some demo_Eval) copy_transform
    (FuncNode "keep" "ghost" [NameNode "ghost"]) 0 60 () (demo_state 0)
  = Done (([], Some ErrMissingTimeseries), demo_state 1).
Proof.
  split.
  - apply (proj1 (ForEachSeriesDo_errors (Some demo_Eval) copy_transform 0 60 ()
                    (NameNode "a") (demo_state 0))).
    reflexivity.
  - apply (proj2 (ForEachSeriesDo_errors (Some demo_Eval) copy_transform 0 60 ()
                    (FuncNode "keep" "ghost" [NameNode "ghost"]) (demo_state 0))
             (NameNode "ghost") [] ErrSeriesDoesNotExist (demo_state 1));
      reflexivity.
Defined.

Lemma copy_transform_keeps_series : keeps_series copy_transform.
Proof.
  intros a r st out st' Hrun p d Hp Hd. unfold copy_transform in Hrun.
  destruct (load (heap st) a) as [da|]; [|discriminate].
  destruct (load (heap st) r) as [dr|]; [|discriminate].
  simpl in Hrun. injection Hrun as <- <-. simpl.
  by rewrite lookup_insert_ne.
Qed.

Lemma ForEachSeriesDo_keeps_inputs_witness :
  @None error = None ∧ length [4%nat; 5%nat] = length [2%nat; 3%nat] ∧
  ∀ p d, heap (demo_state 1) !! p = Some d →
         heap (mkState (<[5%nat := series "keep(b.y)" 0 180 60 [7; 8; 9]]>
                          (<[4%nat := series "keep(b.x)" 0 180 60 [4; 5; 6]]> demo_heap))
                 1%nat) !! p = Some d.
Proof.
  apply (ForEachSeriesDo_keeps_inputs (Some demo_Eval) copy_transform 0 180 ()
           keep_call (NameNode "b") (demo_state 0) [2%nat; 3%nat] (demo_state 1)
           [4%nat; 5%nat] None).
  - exact copy_transform_keeps_series.
  - reflexivity.
  - reflexivity.
  - vm_compute. reflexivity.
Defined.

Lemma late_start_heap_regular (p : nat) :
  p ∈ [1%nat; 2%nat] → ∃ d : MetricData (), late_start_heap !! p = Some d ∧ regular d.
Proof.
  intros Hp. apply list_elem_of_In in Hp. simpl in Hp.
  destruct Hp as [<- | [<- | []]]; eexists; (split; [reflexivity|]);
    unfold regular, time_ok; simpl; lia.
Defined.

Lemma AlignSeries_aligns_witness :
  ∃ (m M : Z),
    (∃ p d, p ∈ [1%nat; 2%nat] ∧ late_start_heap !! p = Some d ∧ StartTime d = m) ∧
    (∃ p d, p ∈ [1%nat; 2%nat] ∧ late_start_heap !! p = Some d ∧ StopTime d = M) ∧
    ∀ p d, p ∈ [1%nat; 2%nat] → late_start_heap !! p = Some d →
      m ≤ StartTime d ∧ StopTime d ≤ M ∧
      ∃ d', late_start_aligned !! p = Some d' ∧ StartTime d' = m ∧ StopTime d' = M ∧
            Name d' = Name d ∧ StepTime d' = StepTime d ∧ Other d' = Other d ∧
            (length (Values d) ≤ length (Values d'))%nat.
Proof.
  apply (AlignSeries_aligns [1%nat; 2%nat] [1%nat; 2%nat] late_start_heap late_start_aligned).
  - exact late_start_heap_regular.
  - vm_compute. reflexivity.
Defined.

Lemma AlignSeries_idempotent_witness :
  AlignSeries false [1%nat; 2%nat; 3%nat] demo_heap = Done ([1%nat; 2%nat; 3%nat], demo_heap) ∧
  AlignSeries false [1%nat; 2%nat] late_start_aligned
  = Done ([1%nat; 2%nat], late_start_aligned).
Proof.
  split.
  - apply (proj1 (AlignSeries_idempotent [1%nat; 2%nat; 3%nat] demo_heap
                    ltac:(discriminate)) 0 180).
    intros p Hp. apply list_elem_of_In in Hp. simpl in Hp.
    destruct Hp as [<- | [<- | [<- | []]]]; eexists; repeat split; reflexivity.
  - apply (proj2 (AlignSeries_idempotent [1%nat; 2%nat] late_start_heap
                    ltac:(discriminate)) late_start_aligned).
    + exact late_start_heap_regular.
    + vm_compute. reflexivity.
Defined.

Lemma AlignSeries_same_step_witness :
  AlignSeries true [1%nat; 2%nat] late_start_heap
  = AlignSeries false [1%nat; 2%nat] late_start_heap.
Proof.
  apply (AlignSeries_same_step [1%nat; 2%nat] late_start_heap 10).
  intros p Hp. apply list_elem_of_In in Hp. simpl in Hp.
  destruct Hp as [<- | [<- | []]]; eexists; split; reflexivity.
Defined.

(** The series at location 3 is outside the list. *)
Lemma AlignSeries_writes_in_place_witness :
  [1%nat; 2%nat] = [1%nat; 2%nat] ∧
  dom (<[3%nat := series "c" 0 30 10 [7; 8; 9]]> late_start_aligned)
  = dom (<[3%nat := series "c" 0 30 10 [7; 8; 9]]> late_start_heap) ∧
  ∀ p d, p ∉ [1%nat; 2%nat] →
    <[3%nat := series "c" 0 30 10 [7; 8; 9]]> late_start_heap !! p = Some d →
    ∃ d', <[3%nat := series "c" 0 30 10 [7; 8; 9]]> late_start_aligned !! p = Some d' ∧
      Name d' = Name d ∧ StartTime d' = StartTime d ∧ StopTime d' = StopTime d ∧
      StepTime d' = StepTime d ∧ Other d' = Other d ∧
      length (Values d') = length (Values d).
Proof.
  apply (AlignSeries_writes_in_place false [1%nat; 2%nat] [1%nat; 2%nat]
           (<[3%nat := series "c" 0 30 10 [7; 8; 9]]> late_start_heap)
           (<[3%nat := series "c" 0 30 10 [7; 8; 9]]> late_start_aligned)).
  vm_compute. reflexivity.
Defined.

Lemma AggregateSeries_on_grid_witness :
  ∃ (m M : Z) pr r,
    AggregateSeries false sum_values sum_call [1%nat; 2%nat] late_start_heap
    = Done (([pr], None), <[pr := r]> late_start_aligned) ∧
    (pr ∉ dom late_start_aligned) ∧
    (∃ p d, p ∈ [1%nat; 2%nat] ∧ late_start_heap !! p = Some d ∧ StartTime d = m) ∧
    (∃ p d, p ∈ [1%nat; 2%nat] ∧ late_start_heap !! p = Some d ∧ StopTime d = M) ∧
    (∀ p d, p ∈ [1%nat; 2%nat] → late_start_heap !! p = Some d →
       m ≤ StartTime d ∧ StopTime d ≤ M) ∧
    StartTime r = m ∧ StopTime r = M ∧ StepTime r = 10 ∧
    Z.of_nat (length (Values r)) * 10 = M - m ∧
    ∀ p, p ∈ [1%nat; 2%nat] →
      ∃ d', late_start_aligned !! p = Some d' ∧ length (Values d') = length (Values r).
Proof.
  apply (AggregateSeries_on_grid sum_values 10 0 sum_call [1%nat; 2%nat] late_start_heap
           late_start_aligned).
  - lia.
  - intros p Hp. apply list_elem_of_In in Hp. simpl in Hp.
    destruct Hp as [<- | [<- | []]]; eexists; (split; [reflexivity|]);
      unfold regular, time_ok, on_grid; simpl;
      (repeat split; try lia); [by exists 0 | by exists 1].
  - vm_compute. reflexivity.
Defined.

Lemma AggregateSeries_single_witness :
  AggregateSeries true sum_values (FuncNode "sumSeries" "a" [NameNode "a"]) [1%nat] demo_heap
  = Done (([fresh (dom demo_heap)], None),
          <[fresh (dom demo_heap) :=
              mkMetricData "sumSeries(a)" 0 180 60
                ((λ x, sum_values [x]) <$> (f64_of_int <$> [1; 2; 3])) ()]> demo_heap).
Proof.
  exact (AggregateSeries_single sum_values true (FuncNode "sumSeries" "a" [NameNode "a"])
           1%nat demo_heap (series "a" 0 180 60 [1; 2; 3]) eq_refl).
Defined.

Lemma ExtractMetric_name_witness :
  ExtractMetric IsNameChar_parser no_RangeTables ("cpu.load" +:+ ",b)") = Done "cpu.load"%string.
Proof.
  apply (ExtractMetric_name IsNameChar_parser no_RangeTables "cpu.load" ",b)").
  - reflexivity.
  - right. exists ","%char, "b)"%string. split; [reflexivity|]. split; [reflexivity|].
    right. right. left. reflexivity.
Defined.

Lemma ExtractMetric_discards_prefix_witness :
  ExtractMetric IsNameChar_parser no_RangeTables ("sum" +:+ String "(" "cpu.load)")
  = ExtractMetric IsNameChar_parser no_RangeTables "cpu.load)".
Proof.
  apply (ExtractMetric_discards_prefix IsNameChar_parser no_RangeTables "sum" "cpu.load)" "(");
    solve [reflexivity | discriminate].
Defined.

Lemma ExtractMetric_no_terminator_witness :
  ("c" ≠ ";" ∧ "c" ≠ ")")%char.
Proof.
  apply (ExtractMetric_no_terminator IsNameChar_parser no_RangeTables eq_refl eq_refl
           "sum(cpu.load;tag=1)" "cpu.load" 0 "c");
    reflexivity.
Defined.
